(** * verbose_traceroute (examples/verbose_traceroute.py)

    A shallow embedding of the example's only function and of the behaviour
    of its output.  The function prints; it returns nothing.  The embedding
    therefore returns the ordered trace of what the function does to the
    outside world (socket calls, prints, sleeps) together with how the call
    ends. *)

From Stdlib Require Import ZArith QArith List Sorted String Bool Lia.
From Stdlib Require Import Floats.PrimFloat.
Import ListNotations.
Open Scope Z_scope.

(** ** icmplib objects, as the example uses them *)

(** The constructor call [ICMPRequest(destination=, id=, sequence=, ttl=)]
    of lines 64-68: the record holds the four keyword arguments, Python
    integers, as they are passed.  Each call of the constructor makes a new
    object, and the arguments of the call tell the objects of one run
    apart ([sent_run_distinct]).  The [time] attribute of a request is
    written by [sock.send]; it is carried by [Sent] below. *)
Record ICMPRequest := mkRequest {
  destination : string;
  id : Z;
  sequence : Z;
  ttl : Z
}.

(** What the object keeps of two of its arguments.  The class is icmplib's
    (it is not part of the example): its constructor stores [id & 0xffff]
    and [sequence & 0xffff], the two 16-bit fields of the ICMP header, and
    the properties [request.id] and [request.sequence] read them back. *)
Definition stored_id (request : ICMPRequest) : Z :=
  Z.land (id request) 65535.

Definition stored_sequence (request : ICMPRequest) : Z :=
  Z.land (sequence request) 65535.

(** The three things [reply.raise_for_status()] (line 85) can do: return
    (an echo reply), raise [TimeExceeded] (caught at line 96), or raise
    another [ICMPError] such as [DestinationUnreachable] (caught at
    line 115). *)
Inductive status := EchoReply | TimeExceeded | ICMPError.

(** An [ICMPReply]: the attributes the example reads.  Timestamps are
    Python floats (icmplib takes them from [time.time()]), that is,
    binary64 numbers. *)
Record ICMPReply := mkReply {
  source : string;
  time : float;
  raise_for_status : status
}.

(** What [sock.send(request)] does: return, having set [request.time];
    raise an [ICMPLibError] (an [ICMPSocketError]); raise anything that is
    not an [ICMPLibError] (for instance [KeyboardInterrupt]). *)
Inductive send_result :=
| Sent (request_time : float)
| SendICMPLibError
| SendError.

(** What [sock.receive(request, timeout)] does. *)
Inductive receive_result :=
| Received (reply : ICMPReply)
| TimeoutExceeded
| ReceiveICMPLibError
| ReceiveError.

(** A socket.  Within one call every request has its own (ttl, sequence)
    and is sent once ([sent_run_distinct]), so a function of the request
    describes any behaviour of the network during the call. *)
Record ICMPSocket := mkSocket {
  send : ICMPRequest -> send_result;
  receive : ICMPRequest -> Q -> receive_result
}.

(** The imported functions and constructors.  [None] stands for a raised
    exception.  [socket_getfqdn] is [socket.getfqdn] of the Python library:
    it returns a string for every address it is given, and which string is
    left to the host (the first two rows of the sample output in the module
    docstring show an address repeated in the name column). *)
Record Host := mkHost {
  is_hostname : string -> bool;
  resolve : string -> option (list string);
  is_ipv6_address : string -> bool;
  ICMPv4Socket : option ICMPSocket;
  ICMPv6Socket : option ICMPSocket;
  socket_getfqdn : string -> string
}.

(** [getfqdn(reply.source)], line 79: the call of the function that line 30
    imports from [socket]. *)
Definition getfqdn (h : Host) (name : string) : string :=
  socket_getfqdn h name.

(** [sleep], imported from [time] at line 31: [sleep(secs)] returns when
    [secs] is not negative ([true]) and raises [ValueError] when it is
    ([false]). *)
Definition sleep (secs : Q) : bool := Qle_bool 0 secs.

(** ** The trace *)

(** The two places where a round-trip time is printed: line 90, in the
    [try] block, after [raise_for_status] returned; and line 104, in the
    [except TimeExceeded] handler.  Both print the same text. *)
Inductive site := AfterReply | AfterTimeExceeded.

Inductive event :=
| PrintHeader (address ip_address : string) (max_hops : Z) (* lines 49-50 *)
| NewSocket (ipv6 : bool)                                  (* lines 53-56 *)
| Send (request : ICMPRequest)                             (* line 72 *)
| Receive (request : ICMPRequest) (timeout : Q)            (* line 75 *)
| PrintSource (ttl : Z) (source source_name : string)      (* lines 81-82, no newline *)
| PrintRtt (at_site : site) (round_trip_time : float)      (* lines 90, 104 *)
| Sleep (interval : Q)                                     (* line 106 *)
| PrintStars (ttl : Z)                                     (* line 113 *)
| PrintCompleted.                                          (* line 121 *)

(** How the body of the [for] loop is left. *)
Inductive signal := Normal | Break | Raise.

Record result := mkResult {
  trace : list event;
  reached : bool;  (* the variable [host_reached] afterwards *)
  exit : signal
}.

(** How the function is left.  [OutOfFuel] is an artefact of the embedding
    of the [while] loop: with the fuel that [verbose_traceroute] gives the
    loop it never happens ([while_loop_outcome]). *)
Inductive outcome := Returned | Raised | OutOfFuel.

(** [range(count)], from [range_from 0]. *)
Fixpoint range_from (start : Z) (n : nat) : list Z :=
  match n with
  | O => []
  | S n' => start :: range_from (start + 1) n'
  end.

Definition range (count : Z) : list Z := range_from 0 (Z.to_nat count).

Section Loops.

Variable host : Host.
Variable sock : ICMPSocket.
Variable ip_address : string.
Variable count : Z.
Variables interval timeout : Q.
Variable id : Z.
Variable max_hops : Z.

Definition request_of (ttl sequence : Z) : ICMPRequest :=
  mkRequest ip_address id sequence ttl.

(** Lines 89 and 103: [(reply.time - request.time) * 1000], a subtraction
    and a multiplication of binary64 numbers. *)
Definition rtt (reply : ICMPReply) (request_time : float) : float :=
  ((time reply - request_time) * 1000)%float.

(** Lines 63-117: one pass through the body of the [for] loop.  [Send],
    [Receive] and [Sleep] record the calls, whether they return or raise.
    The reply that the [TimeExceeded] handler reads from the exception
    ([err.reply], line 100) is the reply that raised it.  Lines 90 and 104
    print [round(round_trip_time, 2)]; [PrintRtt] records the call with
    the value of [round_trip_time], the argument of [round].  The
    [ValueError] of [sleep] is raised inside the [except TimeExceeded]
    handler, where no other [except] clause of the statement applies: it
    leaves the function. *)
Definition attempt (ttl sequence : Z) (host_reached : bool) : result :=
  let request := request_of ttl sequence in
  match send sock request with
  | SendError => mkResult [Send request] host_reached Raise
  | SendICMPLibError => mkResult [Send request] host_reached Normal
  | Sent request_time =>
    let called := [Send request; Receive request timeout] in
    match receive sock request timeout with
    | ReceiveError => mkResult called host_reached Raise
    | ReceiveICMPLibError => mkResult called host_reached Normal
    | TimeoutExceeded =>
      mkResult
        (called ++ if sequence >=? count - 1 then [PrintStars ttl] else [])
        host_reached Normal
    | Received reply =>
      let source_name := getfqdn host (source reply) in
      let printed :=
        called ++ [PrintSource ttl (source reply) source_name] in
      match raise_for_status reply with
      | EchoReply =>
        mkResult
          (printed ++ [PrintRtt AfterReply (rtt reply request_time)])
          true Break
      | TimeExceeded =>
        mkResult
          (printed ++ [PrintRtt AfterTimeExceeded (rtt reply request_time);
                       Sleep interval])
          host_reached (if sleep interval then Break else Raise)
      | ICMPError => mkResult printed host_reached Normal
      end
    end
  end.

(** Lines 62-117: [for sequence in range(count)]. *)
Fixpoint for_loop (ttl : Z) (sequences : list Z) (host_reached : bool)
  : result :=
  match sequences with
  | [] => mkResult [] host_reached Normal
  | sequence :: rest =>
    let r := attempt ttl sequence host_reached in
    match exit r with
    | Normal =>
      let r' := for_loop ttl rest (reached r) in
      mkResult (trace r ++ trace r') (reached r') (exit r')
    | Break => mkResult (trace r) (reached r) Normal
    | Raise => r
    end
  end.

(** Lines 61-119: the [while] loop.  Each iteration adds one to [ttl]. *)
Fixpoint while_loop (fuel : nat) (ttl : Z) (host_reached : bool)
  : list event * outcome :=
  if negb host_reached && (ttl <=? max_hops) then
    match fuel with
    | O => ([], OutOfFuel)
    | S fuel' =>
      let r := for_loop ttl (range count) host_reached in
      match exit r with
      | Raise => (trace r, Raised)
      | _ =>
        let w := while_loop fuel' (ttl + 1) (reached r) in
        (trace r ++ fst w, snd w)
      end
    end
  else ([], Returned).

End Loops.

(** Lines 42-45: the address to probe.  [None] when [resolve] raises, or
    when indexing its result raises. *)
Definition ip_address_of (host : Host) (address : string) : option string :=
  if is_hostname host address then
    match resolve host address with
    | Some addresses => nth_error addresses 0
    | None => None
    end
  else Some address.

(** Lines 53-56: the socket that matches the address. *)
Definition socket_for (host : Host) (ip_address : string)
  : option ICMPSocket :=
  if is_ipv6_address host ip_address then ICMPv6Socket host
  else ICMPv4Socket host.

(** Lines 38-121.  The function has no [sock.close()] and no [with]
    block: what becomes of the socket when the call is over is left to the
    Python run time (the finaliser of the socket object), which the trace
    does not record. *)
Definition verbose_traceroute (host : Host) (address : string) (count : Z)
    (interval timeout : Q) (id : Z) (max_hops : Z) : list event * outcome :=
  match ip_address_of host address with
  | None => ([], Raised)
  | Some ip_address =>
    let header := PrintHeader address ip_address max_hops in
    match socket_for host ip_address with
    | None => ([header], Raised)
    | Some sock =>
      let opened := NewSocket (is_ipv6_address host ip_address) in
      let w :=
        while_loop host sock ip_address count interval timeout id max_hops
          (Z.to_nat max_hops) 1 false in
      match snd w with
      | Returned => (header :: opened :: fst w ++ [PrintCompleted], Returned)
      | o => (header :: opened :: fst w, o)
      end
    end
  end.

(** ** Which attempts are made

    The loops, stripped of what they do: the sequence numbers that the
    [for] loop gets to at a ttl (every one up to and including the first
    whose attempt leaves the body by [break] or by an exception), and the
    ttl values that the [while] loop gets to.  They are used to state where
    in the trace an attempt lies; [for_loop_trace] and [while_loop_trace]
    relate them to the loops. *)
Section Attempts.

Variable host : Host.
Variable sock : ICMPSocket.
Variable ip_address : string.
Variable count : Z.
Variables interval timeout : Q.
Variable id : Z.
Variable max_hops : Z.

Local Abbreviation attempt' :=
  (attempt host sock ip_address count interval timeout id).
Local Abbreviation for_loop' :=
  (for_loop host sock ip_address count interval timeout id).

Fixpoint tries (ttl : Z) (sequences : list Z) : list Z :=
  match sequences with
  | [] => []
  | sequence :: rest =>
    sequence ::
    match exit (attempt' ttl sequence false) with
    | Normal => tries ttl rest
    | _ => []
    end
  end.

Fixpoint rounds (fuel : nat) (ttl : Z) : list Z :=
  if ttl <=? max_hops then
    match fuel with
    | O => []
    | S fuel' =>
      let r := for_loop' ttl (range count) false in
      ttl ::
      match exit r with
      | Raise => []
      | _ => if reached r then [] else rounds fuel' (ttl + 1)
      end
    end
  else [].

End Attempts.

(** ** The hop results, read off the trace

    The function prints rows instead of building values.  A row is complete
    when its round-trip time (lines 90, 104) or its stars (line 113) are
    printed; [hops] reads one [HopResult] per completed row.  A
    [PrintSource] that is not directly followed by a [PrintRtt] completes
    no row. *)
Record HopResult := mkHop {
  hop_ttl : Z;
  address : option string;
  resolved_name : option string;
  round_trip_time_ms : option float;
  reached_destination : bool
}.

Definition is_AfterReply (s : site) : bool :=
  match s with AfterReply => true | AfterTimeExceeded => false end.

Definition no_response (ttl : Z) : HopResult := mkHop ttl None None None false.

Fixpoint hops_from (pending : option (Z * string * string))
    (tr : list event) : list HopResult :=
  match tr with
  | [] => []
  | PrintSource ttl src name :: tr' => hops_from (Some (ttl, src, name)) tr'
  | PrintRtt s t :: tr' =>
    match pending with
    | Some (ttl, src, name) =>
      mkHop ttl (Some src) (Some name) (Some t) (is_AfterReply s)
        :: hops_from None tr'
    | None => hops_from None tr'
    end
  | PrintStars ttl :: tr' => no_response ttl :: hops_from None tr'
  | _ :: tr' => hops_from None tr'
  end.

Definition hops (tr : list event) : list HopResult := hops_from None tr.

(** The requests sent, in order. *)
Fixpoint sent (tr : list event) : list ICMPRequest :=
  match tr with
  | [] => []
  | Send request :: tr' => request :: sent tr'
  | _ :: tr' => sent tr'
  end.

(** ** Sample networks, for the examples below *)

Module Sample.

Open Scope string_scope.
Open Scope Z_scope.

Definition gateway (n : Z) : string :=
  match n with
  | 1 => "192.168.0.254"
  | 2 => "194.149.164.56"
  | _ => "213.186.32.181"
  end.

(** The destination is [hops_away] hops away; every gateway before it
    answers the first probe with Time Exceeded.  A probe leaves at 1.5 on
    the clock and its answer comes at 1.501953125, which is 2^-9 seconds
    (about two milliseconds) later. *)
Definition reachable (hops_away : Z) : ICMPSocket :=
  mkSocket
    (fun request => Sent 1.5%float)
    (fun request _ =>
       Received
         (mkReply
            (if ttl request <? hops_away then gateway (ttl request)
             else "198.27.92.1")
            1.501953125%float
            (if ttl request <? hops_away then TimeExceeded
             else EchoReply))).

(** The same network, on a socket that sends the first request of each
    ttl and raises an exception at any other. *)
Definition reachable_once (hops_away : Z) : ICMPSocket :=
  mkSocket
    (fun request =>
       if sequence request =? 0 then Sent 1.5%float
       else SendError)
    (receive (reachable hops_away)).

(** Nothing ever answers. *)
Definition silent : ICMPSocket :=
  mkSocket (fun _ => Sent 0%float) (fun _ _ => TimeoutExceeded).

(** The gateway at ttl 1 answers every probe with Destination
    Unreachable; nothing else answers. *)
Definition unreachable_at_1 : ICMPSocket :=
  mkSocket
    (fun _ => Sent 0%float)
    (fun request _ =>
       if ttl request =? 1
       then Received (mkReply "192.168.0.254" 0.015625%float ICMPError)
       else TimeoutExceeded).

(** The gateway at ttl 1 answers the first probe with Destination
    Unreachable and the second with Time Exceeded; the destination is two
    hops away. *)
Definition answers_the_second_probe : ICMPSocket :=
  mkSocket
    (fun _ => Sent 1.5%float)
    (fun request _ =>
       Received
         (mkReply
            (if ttl request <? 2 then gateway 1 else "198.27.92.1")
            1.501953125%float
            (if ttl request <? 2
             then if sequence request =? 0 then ICMPError else TimeExceeded
             else EchoReply))).

(** The reply carries a timestamp that is earlier than the request's
    (the wall clock was set back in between). *)
Definition clock_stepped_back : ICMPSocket :=
  mkSocket
    (fun _ => Sent 2%float)
    (fun _ _ => Received (mkReply "198.27.92.1" 1%float EchoReply)).

(** A host on which every address is a literal IPv4 address and
    [getfqdn] finds no name: it gives the address back. *)
Definition host_of (sock : ICMPSocket) : Host :=
  mkHost (fun _ => false) (fun _ => None) (fun _ => false)
    (Some sock) (Some sock) (fun name => name).

Definition run (sock : ICMPSocket) (count max_hops : Z)
  : list event * outcome :=
  verbose_traceroute (host_of sock) "198.27.92.1" count (5 # 100) (2 # 1)
    4242 max_hops.

End Sample.

(** ** The outcome of one probe, in the words of the design

    How the socket's behaviour on one request is classified: a reply of the
    destination, a reply of a gateway, a timeout, a failure that is not a
    timeout (with the error message received, if one was), and an
    exception that the function does not catch. *)
Inductive ProbeOutcome :=
| Reply (reply : ICMPReply) (request_time : float)
| HopReply (reply : ICMPReply) (request_time : float)
| Timeout
| Failure (message : option ICMPReply)
| Fatal.

Definition probe_outcome (sock : ICMPSocket) (timeout : Q)
    (request : ICMPRequest) : ProbeOutcome :=
  match send sock request with
  | SendError => Fatal
  | SendICMPLibError => Failure None
  | Sent request_time =>
    match receive sock request timeout with
    | ReceiveError => Fatal
    | ReceiveICMPLibError => Failure None
    | TimeoutExceeded => Timeout
    | Received reply =>
      match raise_for_status reply with
      | EchoReply => Reply reply request_time
      | TimeExceeded => HopReply reply request_time
      | ICMPError => Failure (Some reply)
      end
    end
  end.

Definition is_response (o : ProbeOutcome) : bool :=
  match o with
  | Reply _ _ | HopReply _ _ => true
  | _ => false
  end.

Definition is_failure (o : ProbeOutcome) : bool :=
  match o with
  | Failure _ => true
  | _ => false
  end.

(** ** Auxiliary notions for the proofs *)

(** A trace is read the same whatever row is pending when it starts. *)
Definition settled (tr : list event) : Prop :=
  forall pending, hops_from pending tr = hops tr.

(** A piece of trace is self-contained: its rows are read the same whatever
    comes before, and the rows of what comes after are read the same
    too. *)
Definition self_contained (tr : list event) : Prop :=
  forall pending rest,
    settled rest -> hops_from pending (tr ++ rest) = hops tr ++ hops rest.

(** The ttl values of a list of rows go up strictly and stay within
    [lo..hi]. *)
Fixpoint ascending (lo hi : Z) (l : list Z) : Prop :=
  match l with
  | [] => True
  | x :: l' => lo <= x <= hi /\ ascending (x + 1) hi l'
  end.

(** The durations of the calls of [sleep], in order. *)
Fixpoint slept (tr : list event) : list Q :=
  match tr with
  | [] => []
  | Sleep i :: tr' => i :: slept tr'
  | _ :: tr' => slept tr'
  end.

(** A row of a gateway: it has an address and is not the destination's. *)
Definition is_gateway_row (h : HopResult) : bool :=
  match address h with
  | Some _ => negb (reached_destination h)
  | None => false
  end.

(** The same event with another duration, when it is a sleep. *)
Definition with_interval (interval : Q) (e : event) : event :=
  match e with
  | Sleep _ => Sleep interval
  | _ => e
  end.

(** The same host with another [getfqdn], and the same event with the
    name that this [getfqdn] gives, when the event prints a source. *)
Definition with_getfqdn (names : string -> string) (host : Host) : Host :=
  mkHost (is_hostname host) (resolve host) (is_ipv6_address host)
    (ICMPv4Socket host) (ICMPv6Socket host) names.

Definition with_name (names : string -> string) (e : event) : event :=
  match e with
  | PrintSource ttl src _ => PrintSource ttl src (names src)
  | _ => e
  end.

(** The events that come from the body of the [for] loop. *)
Definition in_the_loops (e : event) : Prop :=
  match e with
  | PrintHeader _ _ _ | NewSocket _ | PrintCompleted => False
  | _ => True
  end.

(** * Facts about the loops *)

Section Facts.

Variable host : Host.
Variable sock : ICMPSocket.
Variable ip_address : string.
Variable count : Z.
Variables interval timeout : Q.
Variable id : Z.
Variable max_hops : Z.

Local Abbreviation Request := (request_of ip_address id).
Local Abbreviation Attempt :=
  (attempt host sock ip_address count interval timeout id).
Local Abbreviation For :=
  (for_loop host sock ip_address count interval timeout id).
Local Abbreviation While :=
  (while_loop host sock ip_address count interval timeout id max_hops).
Local Abbreviation Tries :=
  (tries host sock ip_address count interval timeout id).
Local Abbreviation Rounds :=
  (rounds host sock ip_address count interval timeout id max_hops).
Local Abbreviation outcome_of ttl sequence :=
  (probe_outcome sock timeout (Request ttl sequence)).
Local Abbreviation Round ttl := (For ttl (range count) false).
Local Abbreviation AllRounds := (Rounds (Z.to_nat max_hops) 1).
Local Abbreviation Body := (fst (While (Z.to_nat max_hops) 1 false)).

(** Case analysis on what the socket does with the request of an
    attempt. *)
Ltac socket_cases t s :=
  unfold attempt, probe_outcome;
  destruct (send sock (Request t s)) as [request_time| |];
  [ destruct (receive sock (Request t s) timeout) as [reply| | |];
    [ destruct (raise_for_status reply) | | | ] | | ];
  cbn [trace reached exit app].

(** Whether the [sleep] of the goal returns or raises. *)
Ltac sleep_cases :=
  try match goal with
      | |- context [if sleep interval then _ else _] =>
        destruct (sleep interval)
      | H : context [if sleep interval then _ else _] |- _ =>
        destruct (sleep interval)
      end.

(** *** One attempt *)

Lemma attempt_exit t s hr :
  exit (Attempt t s hr) =
  match outcome_of t s with
  | Reply _ _ => Break
  | HopReply _ _ => if sleep interval then Break else Raise
  | Timeout | Failure _ => Normal
  | Fatal => Raise
  end.
Proof. socket_cases t s; reflexivity. Qed.

(** An attempt goes on to the next one exactly when it ends in a timeout
    or in a failure that is not one. *)
Lemma attempt_exit_normal t s hr :
  exit (Attempt t s hr) = Normal <->
  (is_response (outcome_of t s) = false /\ outcome_of t s <> Fatal).
Proof.
  rewrite attempt_exit.
  destruct (outcome_of t s); sleep_cases; cbn;
    intuition (try discriminate; try congruence).
Qed.

(** An attempt ends the call with an exception when a socket call raises
    one that is not caught, or when [sleep] does. *)
Lemma attempt_raises t s hr :
  exit (Attempt t s hr) = Raise <->
  outcome_of t s = Fatal \/
  (sleep interval = false /\
   exists reply request_time, outcome_of t s = HopReply reply request_time).
Proof.
  rewrite attempt_exit.
  destruct (outcome_of t s) as [r rt|r rt| | |]; sleep_cases;
    split; try discriminate; try (intros [H|[H1 (? & ? & H2)]]; discriminate);
    eauto 6.
Qed.

Lemma sleep_spec secs :
  (sleep secs = true <-> (0 <= secs)%Q) /\
  (sleep secs = false <-> (secs < 0)%Q).
Proof.
  unfold sleep. pose proof (Qle_bool_iff 0 secs) as H. split; [exact H|].
  destruct (Qle_bool 0 secs).
  - split; [discriminate|]. intros Hlt.
    exfalso. apply (Qlt_not_le _ _ Hlt). now apply H.
  - split; [|reflexivity]. intros _. apply Qnot_le_lt. intros Hle.
    apply H in Hle. discriminate.
Qed.

Lemma attempt_reached t s hr :
  reached (Attempt t s hr) =
  match outcome_of t s with
  | Reply _ _ => true
  | _ => hr
  end.
Proof. socket_cases t s; reflexivity. Qed.

Lemma attempt_trace_any t s hr hr' :
  trace (Attempt t s hr) = trace (Attempt t s hr').
Proof. socket_cases t s; reflexivity. Qed.

Lemma probe_outcome_reply request reply request_time :
  probe_outcome sock timeout request = Reply reply request_time ->
  send sock request = Sent request_time /\
  receive sock request timeout = Received reply /\
  raise_for_status reply = EchoReply.
Proof.
  unfold probe_outcome. destruct (send sock request); try discriminate.
  destruct (receive sock request timeout) as [r| | |]; try discriminate.
  destruct (raise_for_status r) eqn:Hs; try discriminate.
  intros H; injection H as -> ->. auto.
Qed.

Lemma probe_outcome_hop_reply request reply request_time :
  probe_outcome sock timeout request = HopReply reply request_time ->
  send sock request = Sent request_time /\
  receive sock request timeout = Received reply /\
  raise_for_status reply = TimeExceeded.
Proof.
  unfold probe_outcome. destruct (send sock request); try discriminate.
  destruct (receive sock request timeout) as [r| | |]; try discriminate.
  destruct (raise_for_status r) eqn:Hs; try discriminate.
  intros H; injection H as -> ->. auto.
Qed.

(** What an event in the trace of an attempt tells about the attempt. *)
Lemma in_attempt e t s hr :
  In e (trace (Attempt t s hr)) ->
  match e with
  | Send request => request = Request t s
  | Receive request q => request = Request t s /\ q = timeout
  | PrintSource t' src name =>
    t' = t /\ name = getfqdn host src /\
    exists reply, receive sock (Request t s) timeout = Received reply /\
      src = source reply
  | PrintRtt AfterReply r =>
    exists reply request_time,
      outcome_of t s = Reply reply request_time /\ r = rtt reply request_time
  | PrintRtt AfterTimeExceeded r =>
    exists reply request_time,
      outcome_of t s = HopReply reply request_time /\
      r = rtt reply request_time
  | Sleep i =>
    i = interval /\
    exists reply request_time, outcome_of t s = HopReply reply request_time
  | PrintStars t' => t' = t /\ count - 1 <= s /\ outcome_of t s = Timeout
  | _ => False
  end.
Proof.
  socket_cases t s; cbn [In]; try destruct (Z.geb_spec s (count - 1));
    cbn [In]; intros Hin;
    repeat match goal with
           | H : _ \/ _ |- _ => destruct H as [<-|?]
           | H : False |- _ => destruct H
           end;
    eauto 8.
Qed.

(** *** Reading rows off pieces of trace *)

Lemma settled_nil : settled [].
Proof. intros p; reflexivity. Qed.

Lemma settled_cons e tr :
  (forall s t, e <> PrintRtt s t) -> settled (e :: tr).
Proof.
  intros He p. unfold hops.
  destruct e; cbn [hops_from]; try reflexivity.
  exfalso; eapply He; reflexivity.
Qed.

Lemma self_contained_settled tr rest :
  self_contained tr -> settled rest -> settled (tr ++ rest).
Proof.
  intros Htr Hrest p. unfold hops at 1. now rewrite !Htr.
Qed.

Lemma self_contained_nil : self_contained [].
Proof. intros p rest Hrest. cbn. apply Hrest. Qed.

Lemma hops_app tr rest :
  self_contained tr -> settled rest -> hops (tr ++ rest) = hops tr ++ hops rest.
Proof. intros Htr Hrest. apply Htr, Hrest. Qed.

Lemma self_contained_app tr1 tr2 :
  self_contained tr1 -> self_contained tr2 -> self_contained (tr1 ++ tr2).
Proof.
  intros H1 H2 p rest Hrest.
  assert (Hs2 : settled tr2).
  { rewrite <- (app_nil_r tr2).
    apply self_contained_settled; [assumption | apply settled_nil]. }
  rewrite <- app_assoc, H1 by now apply self_contained_settled.
  rewrite hops_app by assumption.
  rewrite (hops_app tr1 tr2) by assumption.
  now rewrite app_assoc.
Qed.

Lemma self_contained_attempt t s hr : self_contained (trace (Attempt t s hr)).
Proof.
  intros p rest Hrest.
  socket_cases t s; unfold hops; cbn [hops_from app];
    try destruct (s >=? count - 1); cbn [hops_from app];
    try rewrite (Hrest (Some _)); reflexivity.
Qed.

Lemma hops_attempt t s hr :
  hops (trace (Attempt t s hr)) =
  match outcome_of t s with
  | Reply reply request_time =>
    [mkHop t (Some (source reply)) (Some (getfqdn host (source reply)))
       (Some (rtt reply request_time)) true]
  | HopReply reply request_time =>
    [mkHop t (Some (source reply)) (Some (getfqdn host (source reply)))
       (Some (rtt reply request_time)) false]
  | Timeout => if s >=? count - 1 then [no_response t] else []
  | Failure _ | Fatal => []
  end.
Proof.
  socket_cases t s; try reflexivity.
  destruct (s >=? count - 1); reflexivity.
Qed.

Lemma sent_app tr1 tr2 : sent (tr1 ++ tr2) = sent tr1 ++ sent tr2.
Proof.
  induction tr1 as [|e tr1 IH]; [reflexivity|].
  destruct e; cbn; now rewrite ?IH.
Qed.

Lemma sent_attempt t s hr : sent (trace (Attempt t s hr)) = [Request t s].
Proof.
  socket_cases t s; try reflexivity.
  destruct (s >=? count - 1); reflexivity.
Qed.

Lemma in_sent request tr : In request (sent tr) <-> In (Send request) tr.
Proof.
  induction tr as [|e tr IH]; [reflexivity|].
  destruct e; cbn; rewrite IH; intuition (try discriminate; try congruence).
Qed.

(** *** The [for] loop *)

Lemma hops_flat_map {A} (f : A -> list event) (l : list A) :
  (forall x, self_contained (f x)) ->
  self_contained (flat_map f l) /\
  hops (flat_map f l) = flat_map (fun x => hops (f x)) l.
Proof.
  intros Hf. induction l as [|x l [IHc IHh]]; cbn [flat_map].
  - split; [apply self_contained_nil | reflexivity].
  - split; [now apply self_contained_app|].
    rewrite hops_app, IHh; try reflexivity; [apply Hf|].
    rewrite <- (app_nil_r (flat_map f l)).
    apply self_contained_settled; [assumption | apply settled_nil].
Qed.

Lemma for_loop_trace t seqs :
  trace (For t seqs false) =
  flat_map (fun s => trace (Attempt t s false)) (Tries t seqs).
Proof.
  induction seqs as [|s rest IH]; [reflexivity|].
  cbn [for_loop tries flat_map].
  pose proof (attempt_reached t s false) as Hr.
  rewrite attempt_exit in *.
  destruct (outcome_of t s); sleep_cases;
    cbn [trace flat_map]; rewrite ?app_nil_r;
    try reflexivity; now rewrite Hr, IH.
Qed.

Lemma for_loop_exit_reached t seqs :
  exit (For t seqs false) <> Break /\
  (exit (For t seqs false) = Raise <->
   exists s, In s (Tries t seqs) /\ exit (Attempt t s false) = Raise) /\
  (reached (For t seqs false) = true <->
   exists s, In s (Tries t seqs) /\
     exists reply request_time, outcome_of t s = Reply reply request_time).
Proof.
  induction seqs as [|s rest (IHb & IHx & IHr)]; cbn [for_loop tries].
  - cbn. repeat split; try discriminate; intros [s [[] _]].
  - pose proof (attempt_reached t s false) as Hr.
    pose proof (attempt_exit t s false) as Hx.
    destruct (exit (Attempt t s false)) eqn:He; cbn [trace reached exit].
    + assert (Hfalse : reached (Attempt t s false) = false)
        by (rewrite Hr; destruct (outcome_of t s);
            sleep_cases; (discriminate || reflexivity)).
      rewrite Hfalse, IHx, IHr. split; [assumption|].
      split; (split; intros (s' & Hin & H);
              [exists s'; split; [now right | assumption]|]);
        (destruct Hin as [<-|Hin]; [|now exists s']).
      * congruence.
      * destruct H as (r & rt & H). rewrite H in Hx. discriminate.
    + split; [discriminate|]. split; (split; [try discriminate|]).
      * intros (s' & [<-|[]] & H). congruence.
      * intros Htrue. exists s. split; [now left|].
        rewrite Hr in Htrue.
        destruct (outcome_of t s); try discriminate; eauto.
      * intros (s' & [<-|[]] & r & rt & H). rewrite Hr, H. reflexivity.
    + rewrite He. split; [discriminate|]. split; split; try reflexivity.
      * intros _. exists s. split; [now left | assumption].
      * intros Htrue. exists s. split; [now left|].
        rewrite Hr in Htrue.
        destruct (outcome_of t s); try discriminate; eauto.
      * intros (s' & [<-|[]] & r & rt & H). rewrite Hr, H. reflexivity.
Qed.

Lemma in_range_from x n start :
  In x (range_from start n) <-> start <= x < start + Z.of_nat n.
Proof.
  revert start; induction n as [|n IH]; intros start; cbn [range_from In].
  - lia.
  - rewrite IH. lia.
Qed.

Lemma length_range_from n start : List.length (range_from start n) = n.
Proof.
  revert start; induction n as [|n IH]; intros start; cbn; now rewrite ?IH.
Qed.

Lemma in_range x n : In x (range n) <-> 0 <= x < n.
Proof. unfold range. rewrite in_range_from. lia. Qed.

Lemma in_tries_range t s n start :
  In s (Tries t (range_from start n)) <->
  start <= s < start + Z.of_nat n /\
  forall k, start <= k < s -> exit (Attempt t k false) = Normal.
Proof.
  revert start; induction n as [|n IH]; intros start;
    cbn [range_from tries In].
  - split; [intros [] | lia].
  - split.
    + intros [<-|Hin]; [split; [lia | intros k Hk; lia]|].
      destruct (exit (Attempt t start false)) eqn:Hx; try contradiction.
      apply IH in Hin as [Hs Hk]. split; [lia|].
      intros k Hk'. destruct (Z.eq_dec k start) as [->|]; [assumption|].
      apply Hk; lia.
    + intros [Hs Hk]. destruct (Z.eq_dec start s) as [->|Hne]; [now left|].
      right. rewrite (Hk start) by lia. apply IH. split; [lia|].
      intros k Hk'. apply Hk; lia.
Qed.

Lemma tries_prefix t n start :
  exists m, (m <= n)%nat /\ Tries t (range_from start n) = range_from start m.
Proof.
  revert start; induction n as [|n IH]; intros start.
  - exists O. split; [lia | reflexivity].
  - cbn [range_from tries].
    destruct (exit (Attempt t start false)).
    + destruct (IH (start + 1)) as (m & Hm & ->).
      exists (S m). split; [lia | reflexivity].
    + exists 1%nat. split; [lia | reflexivity].
    + exists 1%nat. split; [lia | reflexivity].
Qed.

Lemma self_contained_for_loop t seqs : self_contained (trace (For t seqs false)).
Proof.
  rewrite for_loop_trace.
  apply hops_flat_map. intros s. apply self_contained_attempt.
Qed.

Lemma settled_for_loop t seqs : settled (trace (For t seqs false)).
Proof.
  rewrite <- (app_nil_r (trace _)).
  apply self_contained_settled;
    [apply self_contained_for_loop | apply settled_nil].
Qed.

(** *** The [while] loop *)

Lemma while_loop_reached fuel t : While fuel t true = ([], Returned).
Proof. destruct fuel; reflexivity. Qed.

Lemma while_loop_trace fuel t :
  fst (While fuel t false) =
  flat_map (fun t' => trace (For t' (range count) false)) (Rounds fuel t).
Proof.
  revert t; induction fuel as [|fuel IH]; intros t; cbn [while_loop rounds];
    cbn [negb andb]; destruct (t <=? max_hops); try reflexivity.
  destruct (for_loop_exit_reached t (range count)) as (Hb & _ & _).
  destruct (exit (For t (range count) false)); try congruence;
    cbn [fst flat_map]; rewrite ?app_nil_r; try reflexivity.
  destruct (reached (For t (range count) false)).
  - now rewrite while_loop_reached.
  - now rewrite IH.
Qed.

Lemma in_rounds fuel t0 t :
  (Z.to_nat (max_hops + 1 - t0) <= fuel)%nat ->
  In t (Rounds fuel t0) <->
  t0 <= t <= max_hops /\
  forall t', t0 <= t' < t ->
    exit (For t' (range count) false) <> Raise /\
    reached (For t' (range count) false) = false.
Proof.
  revert t0; induction fuel as [|fuel IH]; intros t0 Hfuel; cbn [rounds].
  - destruct (Z.leb_spec t0 max_hops); [lia|].
    split; [intros [] | lia].
  - destruct (Z.leb_spec t0 max_hops).
    2: split; [intros [] | lia].
    cbn [In]. split.
    + intros [<-|Hin]; [split; [lia | intros t' Ht'; lia]|].
      destruct (exit (For t0 (range count) false)) eqn:Hx;
        try contradiction;
        destruct (reached (For t0 (range count) false)) eqn:Hr;
        try contradiction;
        (apply IH in Hin as [Ht Hk]; [|lia]); (split; [lia|]);
        intros t' Ht'; (destruct (Z.eq_dec t' t0) as [->|];
          [rewrite Hx, Hr; split; [discriminate | reflexivity]
          | apply Hk; lia]).
    + intros [Ht Hk]. destruct (Z.eq_dec t0 t) as [->|Hne]; [now left|].
      right. destruct (Hk t0) as [Hx Hr]; [lia|]. rewrite Hr.
      assert (Hin : In t (Rounds fuel (t0 + 1))).
      { apply IH; [lia|]. split; [lia|]. intros t' Ht'. apply Hk; lia. }
      destruct (exit (For t0 (range count) false)); congruence.
Qed.

Lemma rounds_prefix fuel t0 :
  exists m, (m <= Z.to_nat (max_hops + 1 - t0))%nat /\
    Rounds fuel t0 = range_from t0 m.
Proof.
  revert t0; induction fuel as [|fuel IH]; intros t0; cbn [rounds].
  - exists O. split; [lia | now destruct (t0 <=? max_hops)].
  - destruct (Z.leb_spec t0 max_hops).
    2: exists O; split; [lia | reflexivity].
    destruct (IH (t0 + 1)) as (m & Hm & Hrounds).
    destruct (exit (For t0 (range count) false));
      try destruct (reached (For t0 (range count) false));
      try (exists 1%nat; split; [lia | reflexivity]);
      exists (S m); (split; [lia | cbn [range_from]; now rewrite Hrounds]).
Qed.

Lemma while_loop_outcome fuel t0 :
  (Z.to_nat (max_hops + 1 - t0) <= fuel)%nat ->
  snd (While fuel t0 false) <> OutOfFuel /\
  (snd (While fuel t0 false) = Raised <->
   exists t, In t (Rounds fuel t0) /\ exit (For t (range count) false) = Raise).
Proof.
  revert t0; induction fuel as [|fuel IH]; intros t0 Hfuel;
    cbn [while_loop rounds negb andb].
  - destruct (Z.leb_spec t0 max_hops); [lia|]. cbn.
    split; [discriminate|]. split; [discriminate | intros (t & [] & _)].
  - destruct (Z.leb_spec t0 max_hops).
    2: cbn; split; [discriminate|]; split;
       [discriminate | intros (t & [] & _)].
    destruct (IH (t0 + 1)) as [IHf IHr]; [lia|].
    destruct (for_loop_exit_reached t0 (range count)) as (Hb & _).
    destruct (exit (For t0 (range count) false)) eqn:Hx; cbn [snd];
      [|congruence|].
    2: { split; [discriminate|]. split; [|reflexivity].
         intros _. exists t0. split; [now left | assumption]. }
    destruct (reached (For t0 (range count) false)) eqn:Hr.
    + rewrite while_loop_reached. cbn [snd].
      split; [discriminate|]. split; [discriminate|].
      intros (t & [<-|[]] & Ht). congruence.
    + split; [assumption|]. rewrite IHr. split.
      * intros (t & Hin & Ht). exists t. split; [now right | assumption].
      * intros (t & [<-|Hin] & Ht); [congruence|]. now exists t.
Qed.

(** *** Where an attempt lies in the trace *)

Lemma flat_map_split {A B} (f : A -> list B) l pre e post :
  flat_map f l = pre ++ e :: post ->
  exists l1 x l2 p1 p2,
    l = l1 ++ x :: l2 /\ f x = p1 ++ e :: p2 /\
    pre = flat_map f l1 ++ p1 /\ post = p2 ++ flat_map f l2.
Proof.
  revert pre; induction l as [|x l IH]; intros pre H; cbn [flat_map] in H.
  - destruct pre; discriminate.
  - apply app_eq_app in H as [l' [[Hfx Hrest]|[Hpre Hrest]]].
    + destruct l' as [|e' l'].
      * cbn in Hrest. symmetry in Hrest.
        apply (IH []) in Hrest as (l1 & y & l2 & p1 & p2 & -> & Hy & Hp & ->).
        exists (x :: l1), y, l2, p1, p2. rewrite app_nil_r in Hfx.
        cbn [flat_map]. rewrite <- app_assoc, <- Hp, Hfx, app_nil_r.
        repeat split; assumption.
      * injection Hrest as <- ->.
        exists [], x, l, pre, l'. repeat split; assumption.
    + apply IH in Hrest as (l1 & y & l2 & p1 & p2 & -> & Hy & -> & ->).
      exists (x :: l1), y, l2, p1, p2. cbn [flat_map].
      rewrite <- app_assoc. repeat split; assumption.
Qed.

Lemma range_from_app a b start :
  range_from start (a + b) =
  range_from start a ++ range_from (start + Z.of_nat a) b.
Proof.
  revert start; induction a as [|a IH]; intros start; cbn [range_from app plus].
  - f_equal. lia.
  - rewrite IH. do 3 f_equal. lia.
Qed.

Lemma range_from_split n start l1 x l2 :
  range_from start n = l1 ++ x :: l2 ->
  x = start + Z.of_nat (List.length l1) /\
  l1 = range_from start (List.length l1) /\
  l2 = range_from (x + 1) (List.length l2).
Proof.
  revert start l1; induction n as [|n IH]; intros start l1 H;
    cbn [range_from] in H.
  - destruct l1; discriminate.
  - destruct l1 as [|y l1]; cbn [app] in H; injection H as <- H.
    + cbn [List.length]. subst l2. rewrite length_range_from.
      repeat split; lia.
    + apply IH in H as (Hx & Hl1 & Hl2). cbn [List.length range_from].
      repeat split; [lia | now f_equal | assumption].
Qed.

Lemma in_attempt_send t s t' s' hr :
  In (Send (Request t s)) (trace (Attempt t' s' hr)) <-> t = t' /\ s = s'.
Proof.
  rewrite <- in_sent, sent_attempt. cbn [In]. unfold request_of.
  split; [intros [H|[]]; injection H; auto | intros [-> ->]; now left].
Qed.

Lemma in_body e :
  In e Body <->
  exists t s, In t AllRounds /\ In s (Tries t (range count)) /\
    In e (trace (Attempt t s false)).
Proof.
  rewrite while_loop_trace, in_flat_map. split.
  - intros (t & Ht & He). rewrite for_loop_trace, in_flat_map in He.
    destruct He as (s & Hs & He). now exists t, s.
  - intros (t & s & Ht & Hs & He). exists t. split; [assumption|].
    rewrite for_loop_trace, in_flat_map. now exists s.
Qed.

Lemma sent_in_body t s :
  In (Send (Request t s)) Body <->
  In t AllRounds /\ In s (Tries t (range count)).
Proof.
  rewrite in_body. split.
  - intros (t' & s' & Ht & Hs & He).
    apply in_attempt_send in He as [-> ->]. now split.
  - intros [Ht Hs]. exists t, s. repeat split; try assumption.
    now apply in_attempt_send.
Qed.

Lemma self_contained_body : self_contained Body.
Proof.
  rewrite while_loop_trace. apply hops_flat_map.
  intros t. apply self_contained_for_loop.
Qed.

Lemma hops_round t :
  hops (trace (Round t)) =
  flat_map (fun s => hops (trace (Attempt t s false))) (Tries t (range count)).
Proof.
  rewrite for_loop_trace. apply hops_flat_map.
  intros s. apply self_contained_attempt.
Qed.

Lemma hops_body :
  hops Body = flat_map (fun t => hops (trace (Round t))) AllRounds.
Proof.
  rewrite while_loop_trace. apply hops_flat_map.
  intros t. apply self_contained_for_loop.
Qed.

Lemma in_hops_body h :
  In h (hops Body) <->
  exists t s, In (Send (Request t s)) Body /\
    In h (hops (trace (Attempt t s false))).
Proof.
  rewrite hops_body, in_flat_map. split.
  - intros (t & Ht & Hh). rewrite hops_round, in_flat_map in Hh.
    destruct Hh as (s & Hs & Hh). exists t, s.
    split; [now apply sent_in_body | assumption].
  - intros (t & s & Hsent & Hh). apply sent_in_body in Hsent as [Ht Hs].
    exists t. split; [assumption|].
    rewrite hops_round, in_flat_map. now exists s.
Qed.

Lemma sent_in_body_iff t s :
  In (Send (Request t s)) Body <->
  (1 <= t <= max_hops /\
   forall t', 1 <= t' < t ->
     exit (Round t') <> Raise /\ reached (Round t') = false) /\
  (0 <= s < count /\
   forall k, 0 <= k < s -> exit (Attempt t k false) = Normal).
Proof.
  rewrite sent_in_body, in_rounds by lia.
  unfold range. rewrite in_tries_range.
  assert (0 <= s < 0 + Z.of_nat (Z.to_nat count) <-> 0 <= s < count) by lia.
  tauto.
Qed.

Lemma sent_in_body_form request :
  In (Send request) Body -> exists t s, request = Request t s.
Proof.
  intros H. apply in_body in H as (t & s & _ & _ & H).
  exists t, s. apply in_sent in H. rewrite sent_attempt in H.
  destruct H as [H|[]]. now symmetry.
Qed.

(** *** The whole call *)

Variable target : string.
Hypothesis resolved : ip_address_of host target = Some ip_address.
Hypothesis opened : socket_for host ip_address = Some sock.

Local Abbreviation Run :=
  (verbose_traceroute host target count interval timeout id max_hops).

Lemma run_outcome :
  snd Run = snd (While (Z.to_nat max_hops) 1 false) /\ snd Run <> OutOfFuel.
Proof.
  unfold verbose_traceroute. rewrite resolved, opened.
  destruct (while_loop_outcome (Z.to_nat max_hops) 1) as [Hfuel _]; [lia|].
  destruct (snd (While (Z.to_nat max_hops) 1 false)) eqn:Hw; cbn [snd];
    split; congruence.
Qed.

Lemma run_trace :
  fst Run =
  PrintHeader target ip_address max_hops
    :: NewSocket (is_ipv6_address host ip_address)
    :: Body ++ match snd Run with Returned => [PrintCompleted] | _ => [] end.
Proof.
  destruct run_outcome as [Hsnd _]. rewrite Hsnd.
  unfold verbose_traceroute. rewrite resolved, opened.
  destruct (snd (While (Z.to_nat max_hops) 1 false)); cbn [fst];
    now rewrite ?app_nil_r.
Qed.

Lemma settled_tail :
  settled match snd Run with Returned => [PrintCompleted] | _ => [] end.
Proof.
  destruct (snd Run); intros p; reflexivity.
Qed.

Lemma hops_run : hops (fst Run) = hops Body.
Proof.
  rewrite run_trace. unfold hops at 1. cbn [hops_from].
  rewrite self_contained_body by apply settled_tail.
  destruct (snd Run); cbn; now rewrite app_nil_r.
Qed.

Lemma in_run_body e :
  In e (fst Run) <->
  e = PrintHeader target ip_address max_hops \/
  e = NewSocket (is_ipv6_address host ip_address) \/
  In e Body \/
  (e = PrintCompleted /\ snd Run = Returned).
Proof.
  rewrite run_trace. cbn [In]. rewrite in_app_iff.
  destruct (snd Run); cbn [In];
    intuition (try congruence; try discriminate; auto).
Qed.

Lemma sent_in_run request :
  In (Send request) (fst Run) <-> In (Send request) Body.
Proof.
  rewrite in_run_body. intuition (try discriminate).
Qed.

Lemma run_raised :
  snd Run = Raised <->
  exists t s, In (Send (Request t s)) (fst Run) /\
    exit (Attempt t s false) = Raise.
Proof.
  destruct run_outcome as [-> _].
  destruct (while_loop_outcome (Z.to_nat max_hops) 1) as [_ ->]; [lia|].
  split.
  - intros (t & Ht & Hx).
    apply for_loop_exit_reached in Hx as (s & Hs & Ho).
    exists t, s. split; [|assumption].
    apply sent_in_run, sent_in_body. now split.
  - intros (t & s & Hsent & Ho).
    apply sent_in_run, sent_in_body in Hsent as [Ht Hs].
    exists t. split; [assumption|].
    apply for_loop_exit_reached. now exists s.
Qed.

Lemma in_run_attempt e :
  In e Body ->
  exists t s, In (Send (Request t s)) (fst Run) /\
    In e (trace (Attempt t s false)).
Proof.
  intros H. apply in_body in H as (t & s & Ht & Hs & He).
  exists t, s. split; [|assumption].
  apply sent_in_run, sent_in_body. now split.
Qed.

Lemma attempt_timeout t s hr :
  outcome_of t s = Timeout ->
  trace (Attempt t s hr) =
  [Send (Request t s); Receive (Request t s) timeout]
    ++ (if s >=? count - 1 then [PrintStars t] else []) /\
  exit (Attempt t s hr) = Normal.
Proof. socket_cases t s; try discriminate. auto. Qed.

Lemma in_hops_attempt h t s hr :
  In h (hops (trace (Attempt t s hr))) ->
  hop_ttl h = t /\
  (reached_destination h = true <->
   exists reply request_time, outcome_of t s = Reply reply request_time).
Proof.
  rewrite hops_attempt.
  destruct (outcome_of t s) as [reply rt|reply rt| | |];
    try destruct (s >=? count - 1); cbn [In]; intros Hin;
    try contradiction; destruct Hin as [<-|[]]; cbn;
    (split; [reflexivity|]); split; try discriminate; eauto;
    intros (? & ? & ?); discriminate.
Qed.

Lemma in_hops_round h t :
  In h (hops (trace (Round t))) ->
  hop_ttl h = t /\
  (reached_destination h = true -> reached (Round t) = true).
Proof.
  rewrite hops_round, in_flat_map. intros (s & Hs & Hh).
  apply in_hops_attempt in Hh as [Ht Hr]. split; [assumption|].
  intros H. apply for_loop_exit_reached. exists s. split; [assumption|].
  now apply Hr.
Qed.

Lemma filter_same_key {A} (key : A -> Z) (l : list A) x t :
  (forall h, In h l -> key h = x) ->
  filter (fun h => key h =? t) l = if x =? t then l else [].
Proof.
  induction l as [|h l IH]; intros Hkey; cbn [filter].
  - now destruct (x =? t).
  - rewrite (Hkey h) by (now left).
    rewrite IH by (intros h' Hh'; apply Hkey; now right).
    now destruct (x =? t).
Qed.

Lemma filter_flat_map_none {A} (f : Z -> list A) (key : A -> Z) l t :
  (forall x h, In h (f x) -> key h = x) ->
  ~ In t l ->
  filter (fun h => key h =? t) (flat_map f l) = [].
Proof.
  intros Hkey. induction l as [|x l IH]; intros Ht; [reflexivity|].
  cbn [flat_map]. rewrite filter_app, IH by (intros H; apply Ht; now right).
  rewrite (filter_same_key key (f x) x t) by apply Hkey.
  destruct (Z.eqb_spec x t) as [->|]; [|reflexivity].
  exfalso; apply Ht; now left.
Qed.

Lemma filter_flat_map_range {A} (f : Z -> list A) (key : A -> Z) n start t :
  (forall x h, In h (f x) -> key h = x) ->
  In t (range_from start n) ->
  filter (fun h => key h =? t) (flat_map f (range_from start n)) = f t.
Proof.
  intros Hkey. revert start.
  induction n as [|n IH]; intros start Ht; [destruct Ht|].
  cbn [range_from flat_map]. rewrite filter_app.
  rewrite (filter_same_key key (f start) start t) by apply Hkey.
  destruct (Z.eqb_spec start t) as [->|Hne].
  - rewrite filter_flat_map_none, app_nil_r
      by (try assumption; rewrite in_range_from; lia).
    reflexivity.
  - destruct Ht as [Ht|Ht]; [contradiction|]. now rewrite IH.
Qed.

Lemma tries_all_normal t n start :
  (forall s, start <= s < start + Z.of_nat n ->
     exit (Attempt t s false) = Normal) ->
  Tries t (range_from start n) = range_from start n.
Proof.
  revert start; induction n as [|n IH]; intros start H; [reflexivity|].
  cbn [range_from tries]. rewrite H by lia.
  rewrite IH; [reflexivity|]. intros s Hs. apply H. lia.
Qed.

Lemma only_the_last {A} (x : A) n start :
  start + Z.of_nat n = count ->
  flat_map (fun s => if s >=? count - 1 then [x] else []) (range_from start n)
  = match n with O => [] | S _ => [x] end.
Proof.
  revert start; induction n as [|n IH]; intros start H; [reflexivity|].
  cbn [range_from flat_map]. rewrite IH by lia.
  destruct (Z.geb_spec start (count - 1)); destruct n; cbn; try reflexivity;
    lia.
Qed.

(** * The claims *)

(** C4.  At every ttl, once an attempt has been answered (by a gateway's
    Time Exceeded or by the destination's echo reply), no later attempt at
    that ttl is made: its request is neither sent nor waited for. *)
Theorem first_response_ends_the_attempts t k j :
  0 <= k < j ->
  is_response (outcome_of t k) = true ->
  ~ In (Send (Request t j)) (fst Run) /\
  forall q, ~ In (Receive (Request t j) q) (fst Run).
Proof.
  intros Hk Hresp.
  assert (Hsend : ~ In (Send (Request t j)) (fst Run)).
  { intros H. apply sent_in_run, sent_in_body_iff in H as (_ & _ & Hprev).
    specialize (Hprev k Hk). apply attempt_exit_normal in Hprev as [Hprev _].
    congruence. }
  split; [assumption|].
  intros q H. apply in_run_body in H as [H|[H|[H|[H _]]]]; try discriminate.
  apply in_run_attempt in H as (t' & s' & Hsent & H).
  apply in_attempt in H as [H _]. unfold request_of in H.
  injection H as -> ->. contradiction.
Qed.


(** The name of a row is what [getfqdn] returned for the address of the
    row; a row without address (the stars) has no name. *)
Lemma name_of_a_row h :
  In h (hops (fst Run)) ->
  match address h with
  | Some a => resolved_name h = Some (getfqdn host a)
  | None => resolved_name h = None
  end.
Proof.
  intros Hh. rewrite hops_run in Hh.
  apply in_hops_body in Hh as (t & s & _ & Hh).
  rewrite hops_attempt in Hh.
  destruct (outcome_of t s) as [reply rt|reply rt| | |];
    try destruct (s >=? count - 1);
    try (destruct Hh as [<-|[]]); try destruct Hh; reflexivity.
Qed.

Lemma flat_map_ext_in {A B} (f g : A -> list B) l :
  (forall x, In x l -> f x = g x) -> flat_map f l = flat_map g l.
Proof.
  induction l as [|x l IH]; intros H; [reflexivity|].
  cbn [flat_map]. rewrite (H x), IH; [reflexivity | | now left].
  intros y Hy. apply H. now right.
Qed.

Lemma hops_round_all_timeouts t :
  0 < count ->
  (forall s, 0 <= s < count -> outcome_of t s = Timeout) ->
  hops (trace (Round t)) = [no_response t].
Proof.
  intros Hcount Hall. rewrite hops_round. unfold range.
  rewrite tries_all_normal
    by (intros s Hs; apply attempt_timeout, Hall; lia).
  rewrite (flat_map_ext_in _
             (fun s => if s >=? count - 1 then [no_response t] else [])).
  - rewrite only_the_last by lia.
    destruct (Z.to_nat count) eqn:Hn; [lia | reflexivity].
  - intros s Hs. apply in_range_from in Hs.
    rewrite hops_attempt, Hall by lia. reflexivity.
Qed.

(** C3.  The row of stars of a ttl is printed exactly when the last
    attempt at that ttl ([sequence = count - 1]) is made and times out; then
    every earlier attempt at the ttl was made and none was answered.  A
    timeout of an earlier attempt prints no row and the next attempt is
    made.  A ttl all of whose [count] attempts time out has exactly one
    row, without address and without round-trip time. *)
Theorem stars_after_the_last_timeout t :
  (In (PrintStars t) (fst Run) <->
   In (Send (Request t (count - 1))) (fst Run) /\
   outcome_of t (count - 1) = Timeout) /\
  (In (PrintStars t) (fst Run) ->
   forall k, 0 <= k < count - 1 ->
     In (Send (Request t k)) (fst Run) /\
     is_response (outcome_of t k) = false) /\
  (forall s,
     In (Send (Request t s)) (fst Run) -> outcome_of t s = Timeout ->
     hops (trace (Attempt t s false)) =
       (if s =? count - 1 then [no_response t] else []) /\
     (s < count - 1 -> In (Send (Request t (s + 1))) (fst Run))) /\
  (In (Send (Request t 0)) (fst Run) ->
   (forall s, 0 <= s < count -> outcome_of t s = Timeout) ->
   filter (fun h => hop_ttl h =? t) (hops (fst Run)) = [no_response t]).
Proof.
  assert (Hstars : In (PrintStars t) (fst Run) ->
                   In (Send (Request t (count - 1))) (fst Run) /\
                   outcome_of t (count - 1) = Timeout).
  { intros H. apply in_run_body in H as [H|[H|[H|[H _]]]]; try discriminate.
    apply in_run_attempt in H as (t' & s' & Hsent & H).
    apply in_attempt in H as (-> & Hs & Ho).
    pose proof Hsent as Hr.
    apply sent_in_run, sent_in_body_iff in Hr as (_ & Hr & _).
    replace (count - 1) with s' by lia. now split. }
  assert (Hin_tries : In (Send (Request t 0)) (fst Run) -> 0 < count).
  { intros H. apply sent_in_run, sent_in_body_iff in H. lia. }
  split; [split; [exact Hstars|]|split; [|split]].
  - intros [Hsent Ho]. apply in_run_body. right; right; left.
    apply sent_in_run, sent_in_body in Hsent as [Ht Hs].
    apply in_body. exists t, (count - 1). repeat split; try assumption.
    destruct (attempt_timeout t (count - 1) false Ho) as [-> _].
    rewrite Z.geb_leb, Z.leb_refl. cbn. auto.
  - intros H k Hk. apply Hstars in H as [Hsent _].
    apply sent_in_run, sent_in_body_iff in Hsent as (Ht & _ & Hprev). split.
    + apply sent_in_run, sent_in_body_iff.
      split; [exact Ht | split; [lia|]]. intros k' Hk'. apply Hprev. lia.
    + specialize (Hprev k Hk). now apply attempt_exit_normal in Hprev.
  - intros s Hsent Ho.
    apply sent_in_run, sent_in_body_iff in Hsent as (Ht & Hs & Hprev). split.
    + rewrite hops_attempt, Ho.
      destruct (Z.geb_spec s (count - 1)), (Z.eqb_spec s (count - 1));
        try reflexivity; lia.
    + intros Hlt. apply sent_in_run, sent_in_body_iff.
      split; [exact Ht | split; [lia|]]. intros k Hk.
      destruct (Z.eq_dec k s) as [->|]; [|apply Hprev; lia].
      now apply attempt_timeout.
  - intros Hsent Hall. specialize (Hin_tries Hsent).
    apply sent_in_run, sent_in_body in Hsent as [Ht Hs].
    rewrite hops_run, hops_body.
    destruct (rounds_prefix (Z.to_nat max_hops) 1) as (m & _ & Hm).
    rewrite Hm in *.
    rewrite (filter_flat_map_range _ hop_ttl) by
      (try assumption; intros x h Hh; now apply in_hops_round in Hh).
    now apply hops_round_all_timeouts.
Qed.

(** *** The rows of one ttl, and of all *)

Lemma ascending_weaken lo lo' hi l :
  lo' <= lo -> ascending lo hi l -> ascending lo' hi l.
Proof. destruct l; cbn; [trivial|]. intros ? [? ?]. split; [lia | assumption]. Qed.

Lemma ascending_sorted lo hi l :
  ascending lo hi l ->
  StronglySorted Z.lt l /\ Forall (fun x => lo <= x <= hi) l.
Proof.
  revert lo; induction l as [|x l IH]; intros lo H; cbn in H.
  - split; constructor.
  - destruct H as [Hx Hl]. apply IH in Hl as [Hs Hf]. split.
    + constructor; [assumption|].
      eapply Forall_impl; [|exact Hf]. cbn. lia.
    + constructor; [assumption|].
      eapply Forall_impl; [|exact Hf]. cbn. lia.
Qed.

Lemma hops_for_at_most_one t n start :
  start + Z.of_nat n = count ->
  hops (trace (For t (range_from start n) false)) = [] \/
  exists h, hops (trace (For t (range_from start n) false)) = [h].
Proof.
  revert start; induction n as [|n IH]; intros start Hn;
    [now left|].
  cbn [range_from for_loop].
  pose proof (hops_attempt t start false) as Hh.
  pose proof (attempt_reached t start false) as Hr.
  rewrite attempt_exit.
  destruct (outcome_of t start) eqn:Ho; sleep_cases;
    cbn [trace reached exit];
    rewrite ?Hh, ?Hr; eauto;
    rewrite hops_app, Hh
      by (apply self_contained_attempt || apply settled_for_loop).
  - destruct (Z.geb_spec start (count - 1)); [|apply IH; lia].
    destruct n; [|lia]. right. eexists. reflexivity.
  - apply IH; lia.
Qed.

Lemma hops_round_at_most_one t :
  hops (trace (Round t)) = [] \/ exists h, hops (trace (Round t)) = [h].
Proof.
  destruct (Z.le_gt_cases count 0).
  - left. unfold range. now replace (Z.to_nat count) with O by lia.
  - apply hops_for_at_most_one. lia.
Qed.

Lemma ascending_rows (chunk : Z -> list HopResult) hi m start :
  (forall t, chunk t = [] \/ exists h, chunk t = [h]) ->
  (forall t h, In h (chunk t) -> hop_ttl h = t) ->
  start + Z.of_nat m <= hi + 1 ->
  ascending start hi (map hop_ttl (flat_map chunk (range_from start m))).
Proof.
  intros Hone Hkey. revert start.
  induction m as [|m IH]; intros start Hm; [exact I|].
  cbn [range_from flat_map]. specialize (IH (start + 1)).
  destruct (Hone start) as [->|[h Hh]].
  - cbn [app]. apply ascending_weaken with (start + 1); [lia | apply IH; lia].
  - rewrite Hh. cbn [app map ascending].
    rewrite (Hkey start h) by (rewrite Hh; now left).
    split; [lia | apply IH; lia].
Qed.

Lemma hops_for_exactly_one t n start :
  start + Z.of_nat n = count -> (0 < n)%nat ->
  exit (For t (range_from start n) false) <> Raise ->
  (In (count - 1) (Tries t (range_from start n)) ->
   is_failure (outcome_of t (count - 1)) = false) ->
  exists h,
    hops (trace (For t (range_from start n) false)) = [h] /\
    reached_destination h = reached (For t (range_from start n) false).
Proof.
  revert start; induction n as [|n IH]; intros start Hn Hpos; [lia|].
  cbn [range_from tries for_loop].
  pose proof (hops_attempt t start false) as Hh.
  pose proof (attempt_reached t start false) as Hr.
  rewrite attempt_exit.
  destruct (outcome_of t start) eqn:Ho; sleep_cases;
    cbn [trace reached exit]; rewrite ?Hh, ?Hr, ?attempt_exit, ?Ho;
    intros Hx Hfail; try congruence;
    try (eexists; split; reflexivity).
  - rewrite hops_app, Hh
      by (apply self_contained_attempt || apply settled_for_loop).
    destruct (Z.geb_spec start (count - 1)).
    + destruct n; [|lia]. cbn. eexists. split; reflexivity.
    + cbn [app]. apply IH; try assumption; try lia.
      intros Hin. apply Hfail. now right.
  - rewrite hops_app, Hh
      by (apply self_contained_attempt || apply settled_for_loop).
    cbn [app]. destruct n as [|n].
    + exfalso. replace (count - 1) with start in Hfail by lia.
      rewrite Ho in Hfail. specialize (Hfail (or_introl eq_refl)).
      discriminate.
    + apply IH; try assumption; try lia.
      intros Hin. apply Hfail. now right.
Qed.

(** A ttl whose last attempt is made and ends in a failure that is not a
    timeout has no row. *)
Lemma hops_for_none t n start :
  start + Z.of_nat n = count ->
  In (count - 1) (Tries t (range_from start n)) ->
  is_failure (outcome_of t (count - 1)) = true ->
  hops (trace (For t (range_from start n) false)) = [].
Proof.
  revert start; induction n as [|n IH]; intros start Hn; [intros []|].
  cbn [range_from tries for_loop].
  pose proof (hops_attempt t start false) as Hh.
  pose proof (attempt_reached t start false) as Hr.
  rewrite attempt_exit.
  destruct (Z.eq_dec start (count - 1)) as [Heq|Hne].
  - intros _ Hfail. rewrite <- Heq in Hfail.
    destruct (outcome_of t start) eqn:Ho; try discriminate.
    cbn [trace reached exit]. rewrite Hr.
    rewrite hops_app, Hh
      by (apply self_contained_attempt || apply settled_for_loop).
    destruct n; [reflexivity | lia].
  - intros [Hin|Hin] Hfail; [lia|].
    destruct (outcome_of t start) eqn:Ho; sleep_cases; try destruct Hin;
      cbn [trace reached exit]; rewrite Hr;
      rewrite hops_app, Hh
        by (apply self_contained_attempt || apply settled_for_loop).
    + destruct (Z.geb_spec start (count - 1)).
      * apply in_tries_range in Hin. lia.
      * cbn [app]. apply IH; try assumption; lia.
    + cbn [app]. apply IH; try assumption; lia.
Qed.

Lemma rounds_end m :
  AllRounds = range_from 1 m ->
  (forall t, In t AllRounds -> exit (Round t) <> Raise) ->
  m = Z.to_nat max_hops \/
  ((0 < m)%nat /\ reached (Round (Z.of_nat m)) = true).
Proof.
  intros Hm Hx.
  destruct (rounds_prefix (Z.to_nat max_hops) 1) as (m' & Hle & Hm').
  assert (m' = m).
  { rewrite <- (length_range_from m' 1), <- Hm', Hm.
    apply length_range_from. }
  subst m'. destruct (Nat.eq_dec m (Z.to_nat max_hops)) as [|Hne];
    [now left | right].
  assert (Hin : forall t, In t AllRounds <-> 1 <= t < 1 + Z.of_nat m)
    by (intros t; rewrite Hm; apply in_range_from).
  assert (Hnext : ~ In (Z.of_nat m + 1) AllRounds)
    by (rewrite Hin; lia).
  destruct m as [|m].
  - exfalso. apply Hnext. apply in_rounds; [lia|]. split; [lia|]. lia.
  - split; [lia|].
    destruct (reached (Round (Z.of_nat (S m)))) eqn:Hr; [reflexivity|].
    exfalso. apply Hnext. apply in_rounds; [lia|]. split; [lia|].
    intros t' Ht'. destruct (Z.eq_dec t' (Z.of_nat (S m))) as [->|].
    + split; [|assumption]. apply Hx, Hin. lia.
    + assert (Hsucc : In (t' + 1) AllRounds) by (apply Hin; lia).
      apply in_rounds in Hsucc as [_ Hsucc]; [|lia]. apply Hsucc. lia.
Qed.

Lemma map_ttl_rows (chunk : Z -> list HopResult) m start :
  (forall t, In t (range_from start m) ->
     exists h, chunk t = [h] /\ hop_ttl h = t) ->
  map hop_ttl (flat_map chunk (range_from start m)) = range_from start m /\
  List.length (flat_map chunk (range_from start m)) = m.
Proof.
  revert start; induction m as [|m IH]; intros start H; [now split|].
  cbn [range_from flat_map].
  destruct (H start) as (h & -> & Hh); [now left|].
  destruct (IH (start + 1)) as [IHm IHl].
  { intros t Ht. apply H. now right. }
  cbn [app map List.length]. rewrite IHm, IHl, Hh. now split.
Qed.

(** C1, as amended.  The ttl values of the rows go up strictly and lie
    between 1 and [max_hops].  When the call returns and [count] is
    positive, a ttl that was probed has no row exactly when its last
    attempt ([sequence = count - 1]) was made and ended in a failure that
    is not a timeout.  When that happens at no ttl, the ttl values are
    1, 2, 3, ... without a gap, and the rows end with the row of the
    destination or number [max_hops]; they number [max_hops] when no row
    is the destination's. *)
Theorem ttl_values_of_the_rows :
  let rows := hops (fst Run) in
  StronglySorted Z.lt (map hop_ttl rows) /\
  Forall (fun t => 1 <= t <= max_hops) (map hop_ttl rows) /\
  (0 < count ->
   snd Run = Returned ->
   (forall t,
      In (Send (Request t 0)) (fst Run) ->
      filter (fun h => hop_ttl h =? t) rows = [] <->
      In (Send (Request t (count - 1))) (fst Run) /\
      is_failure (outcome_of t (count - 1)) = true) /\
   ((forall t,
       In (Send (Request t (count - 1))) (fst Run) ->
       is_failure (outcome_of t (count - 1)) = false) ->
    map hop_ttl rows = range_from 1 (List.length rows) /\
    ((exists before h,
        rows = before ++ [h] /\ reached_destination h = true) \/
     List.length rows = Z.to_nat max_hops) /\
    (Forall (fun h => reached_destination h = false) rows ->
     List.length rows = Z.to_nat max_hops))).
Proof.
  cbn zeta. rewrite hops_run, hops_body.
  destruct (rounds_prefix (Z.to_nat max_hops) 1) as (m & Hle & Hm).
  assert (Hasc : ascending 1 max_hops
            (map hop_ttl
               (flat_map (fun t => hops (trace (Round t))) AllRounds))).
  { rewrite Hm. destruct m as [|m]; [exact I|]. apply ascending_rows.
    - apply hops_round_at_most_one.
    - intros t h Hh. now apply in_hops_round in Hh.
    - lia. }
  apply ascending_sorted in Hasc as [Hsorted Hbounds].
  split; [assumption | split; [assumption|]].
  intros Hcount Hret.
  assert (Hx : forall t, In t AllRounds -> exit (Round t) <> Raise).
  { intros t Ht Hraise. destruct run_outcome as [Hsnd _].
    rewrite Hsnd in Hret.
    destruct (while_loop_outcome (Z.to_nat max_hops) 1) as [_ Hw]; [lia|].
    assert (Hr : snd (While (Z.to_nat max_hops) 1 false) = Raised)
      by (apply Hw; now exists t).
    congruence. }
  assert (Hlast : forall t,
            In t AllRounds ->
            (In (count - 1) (Tries t (range count)) ->
             is_failure (outcome_of t (count - 1)) = false) ->
            exists h, hops (trace (Round t)) = [h] /\
              reached_destination h = reached (Round t)).
  { intros t Ht Hfail. apply hops_for_exactly_one; try lia; [now apply Hx|].
    exact Hfail. }
  split.
  { intros t Hsent. apply sent_in_run, sent_in_body in Hsent as [Ht _].
    rewrite sent_in_run, sent_in_body.
    pose proof Ht as Ht'. rewrite Hm in Ht'. rewrite Hm at 1.
    rewrite (filter_flat_map_range _ hop_ttl) by
      (try assumption; intros x h Hh; now apply in_hops_round in Hh).
    split.
    - intros Hnone.
      destruct (is_failure (outcome_of t (count - 1))) eqn:Hf.
      + destruct (in_dec Z.eq_dec (count - 1) (Tries t (range count)))
          as [Hin|Hnin]; [now repeat split|].
        destruct (Hlast t Ht) as (h & Hh & _); [now intros Hin|].
        rewrite Hh in Hnone. discriminate.
      + destruct (Hlast t Ht) as (h & Hh & _); [now intros _|].
        rewrite Hh in Hnone. discriminate.
    - intros [[_ Hin] Hf]. apply hops_for_none; try assumption. lia. }
  intros Hfail.
  assert (Hone : forall t, In t AllRounds ->
            exists h, hops (trace (Round t)) = [h] /\
              reached_destination h = reached (Round t)).
  { intros t Ht. apply Hlast; [assumption|].
    intros Hin. apply Hfail, sent_in_run, sent_in_body. now split. }
  destruct (rounds_end m Hm Hx) as [Hend|[Hpos Hend]]; rewrite Hm in *.
  + destruct (map_ttl_rows (fun t => hops (trace (Round t))) m 1)
      as [Hmap Hlen].
    { intros t Ht. destruct (Hone t Ht) as (h & Hh & _).
      exists h. split; [assumption|].
      apply (in_hops_round h t). rewrite Hh. now left. }
    rewrite Hlen. auto.
  + destruct (map_ttl_rows (fun t => hops (trace (Round t))) m 1)
      as [Hmap Hlen].
    { intros t Ht. destruct (Hone t Ht) as (h & Hh & _).
      exists h. split; [assumption|].
      apply (in_hops_round h t). rewrite Hh. now left. }
    rewrite Hlen. split; [assumption|].
    destruct m as [|m]; [lia|].
    destruct (Hone (Z.of_nat (S m))) as (h & Hh & Hr).
    { apply in_range_from. lia. }
    assert (Hrows :
      flat_map (fun t => hops (trace (Round t))) (range_from 1 (S m)) =
      flat_map (fun t => hops (trace (Round t))) (range_from 1 m) ++ [h]).
    { replace (S m) with (m + 1)%nat at 1 by lia.
      rewrite range_from_app, flat_map_app. cbn [range_from flat_map].
      replace (1 + Z.of_nat m) with (Z.of_nat (S m)) by lia.
      now rewrite Hh. }
    split.
    * left. eexists _, h. split; [exact Hrows | congruence].
    * intros Hall. exfalso. rewrite Hrows in Hall.
      apply Forall_app in Hall as [_ Hall].
      apply Forall_inv in Hall. congruence.
Qed.

(** *** The reply of the destination *)

Lemma attempt_reply t s hr r rt :
  outcome_of t s = Reply r rt ->
  trace (Attempt t s hr) =
  [Send (Request t s); Receive (Request t s) timeout;
   PrintSource t (source r) (getfqdn host (source r));
   PrintRtt AfterReply (rtt r rt)].
Proof.
  socket_cases t s; try discriminate. intros H; injection H as -> ->.
  reflexivity.
Qed.

Lemma attempt_hop_reply t s hr r rt :
  outcome_of t s = HopReply r rt ->
  trace (Attempt t s hr) =
  [Send (Request t s); Receive (Request t s) timeout;
   PrintSource t (source r) (getfqdn host (source r));
   PrintRtt AfterTimeExceeded (rtt r rt); Sleep interval].
Proof.
  socket_cases t s; try discriminate. intros H; injection H as -> ->.
  reflexivity.
Qed.

(** The attempts before an attempt that was made, and the attempts after
    it when it left the loop body other than normally. *)
Lemma tries_split t T1 s T2 :
  Tries t (range count) = T1 ++ s :: T2 ->
  (forall k, In k T1 <-> 0 <= k < s) /\
  (exit (Attempt t s false) <> Normal -> T2 = []).
Proof.
  intros HT.
  destruct (tries_prefix t (Z.to_nat count) 0) as (m & _ & Hm).
  fold (range count) in Hm. pose proof HT as HT'. rewrite Hm in HT.
  pose proof (range_from_split _ _ _ _ _ HT) as (Hx & Hl1 & Hl2).
  split.
  - intros k. rewrite Hl1, in_range_from. lia.
  - intros Hexit. destruct T2 as [|k T2]; [reflexivity|]. exfalso.
    cbn [List.length range_from] in Hl2. injection Hl2 as -> _.
    assert (Hnext : In (s + 1) (Tries t (range count))).
    { rewrite HT', in_app_iff. right; right; now left. }
    unfold range in Hnext. apply in_tries_range in Hnext as [_ Hprev].
    apply Hexit, Hprev. lia.
Qed.

Lemma rounds_split R1 t R2 :
  AllRounds = R1 ++ t :: R2 ->
  (forall t', In t' R1 <-> 1 <= t' < t) /\
  (R2 = [] \/ exists R2', R2 = (t + 1) :: R2').
Proof.
  intros HR.
  destruct (rounds_prefix (Z.to_nat max_hops) 1) as (m & _ & Hm).
  rewrite Hm in HR.
  pose proof (range_from_split _ _ _ _ _ HR) as (Hx & Hl1 & Hl2). split.
  - intros k. rewrite Hl1, in_range_from. lia.
  - destruct R2 as [|k R2]; [now left | right].
    cbn [List.length range_from] in Hl2. injection Hl2 as -> _. eauto.
Qed.

Lemma rounds_continue t t' :
  In t AllRounds -> 1 <= t' < t ->
  exit (Round t') <> Raise /\ reached (Round t') = false.
Proof. intros Ht. apply in_rounds in Ht as [_ Ht]; [apply Ht | lia]. Qed.

Lemma body_at_break R1 t R2 T1 s :
  AllRounds = R1 ++ t :: R2 ->
  Tries t (range count) = T1 ++ [s] ->
  let before :=
    flat_map (fun t' => trace (Round t')) R1 ++
    flat_map (fun k => trace (Attempt t k false)) T1 in
  Body =
    before ++ trace (Attempt t s false) ++
    flat_map (fun t' => trace (Round t')) R2 /\
  self_contained before /\
  Forall (fun h => reached_destination h = false) (hops before).
Proof.
  intros HR HT before.
  assert (Ht : In t AllRounds)
    by (rewrite HR, in_app_iff; right; now left).
  destruct (rounds_split _ _ _ HR) as [HR1 _].
  destruct (tries_split _ _ _ _ HT) as [HT1 _].
  assert (Hc1 : self_contained (flat_map (fun t' => trace (Round t')) R1))
    by (apply hops_flat_map; intros; apply self_contained_for_loop).
  assert (Hc2 : self_contained
                  (flat_map (fun k => trace (Attempt t k false)) T1))
    by (apply hops_flat_map; intros; apply self_contained_attempt).
  split; [|split].
  - rewrite while_loop_trace, HR, flat_map_app. cbn [flat_map].
    rewrite for_loop_trace, HT, flat_map_app. cbn [flat_map].
    unfold before. now rewrite app_nil_r, <- !app_assoc.
  - now apply self_contained_app.
  - unfold before. rewrite hops_app; try assumption.
    2: { rewrite <- (app_nil_r (flat_map _ T1)).
         apply self_contained_settled; [assumption | apply settled_nil]. }
    apply Forall_app. split; apply Forall_forall; intros h Hh.
    + destruct (hops_flat_map (fun t' => trace (Round t')) R1) as [_ Heq];
        [intros; apply self_contained_for_loop|].
      rewrite Heq, in_flat_map in Hh. destruct Hh as (t' & Ht' & Hh).
      apply in_hops_round in Hh as [_ Hh].
      apply HR1 in Ht'. destruct (rounds_continue t t' Ht Ht') as [_ Hr].
      destruct (reached_destination h); [|reflexivity].
      rewrite Hh in Hr by reflexivity. discriminate.
    + destruct (hops_flat_map (fun k => trace (Attempt t k false)) T1)
        as [_ Heq]; [intros; apply self_contained_attempt|].
      rewrite Heq, in_flat_map in Hh. destruct Hh as (k & Hk & Hh).
      apply in_hops_attempt in Hh as [_ Hh].
      destruct (reached_destination h); [|reflexivity].
      destruct Hh as [Hh _]. destruct (Hh eq_refl) as (r & rt & Ho).
      assert (Hin : In s (Tries t (range count)))
        by (rewrite HT, in_app_iff; right; now left).
      unfold range in Hin. apply in_tries_range in Hin as [_ Hprev].
      apply HT1 in Hk. specialize (Hprev k Hk).
      rewrite attempt_exit, Ho in Hprev. discriminate.
Qed.

Lemma returned_after_last R1 t T1 s :
  AllRounds = R1 ++ [t] ->
  Tries t (range count) = T1 ++ [s] ->
  exit (Attempt t s false) <> Raise ->
  snd (While (Z.to_nat max_hops) 1 false) = Returned.
Proof.
  intros HR HT Ho.
  destruct (while_loop_outcome (Z.to_nat max_hops) 1) as [Hfuel Hw]; [lia|].
  destruct (snd (While (Z.to_nat max_hops) 1 false));
    [reflexivity | exfalso | congruence].
  destruct Hw as [Hw _]. destruct (Hw eq_refl) as (t' & Ht' & Hx).
  assert (Ht : In t AllRounds)
    by (rewrite HR, in_app_iff; right; now left).
  destruct (rounds_split _ _ _ HR) as [HR1 _].
  rewrite HR, in_app_iff in Ht'. destruct Ht' as [Ht'|[<-|[]]].
  - apply HR1 in Ht'. now destruct (rounds_continue t t' Ht Ht').
  - apply for_loop_exit_reached in Hx as (k & Hk & Hfatal).
    destruct (tries_split _ _ _ _ HT) as [HT1 _].
    assert (Hin : In s (Tries t (range count)))
      by (rewrite HT, in_app_iff; right; now left).
    unfold range in Hin. apply in_tries_range in Hin as [_ Hprev].
    rewrite HT, in_app_iff in Hk. destruct Hk as [Hk|[<-|[]]].
    + apply HT1 in Hk. specialize (Hprev k Hk). congruence.
    + contradiction.
Qed.

Lemma reply_is_last t s r rt :
  In (Send (Request t s)) (fst Run) ->
  outcome_of t s = Reply r rt ->
  exists before,
    Body = before ++ trace (Attempt t s false) /\
    self_contained before /\
    Forall (fun h => reached_destination h = false) (hops before) /\
    snd Run = Returned.
Proof.
  intros Hsent Ho. apply sent_in_run, sent_in_body in Hsent as [Ht Hs].
  destruct (in_split _ _ Ht) as (R1 & R2 & HR).
  destruct (in_split _ _ Hs) as (T1 & T2 & HT).
  assert (Hexit : exit (Attempt t s false) <> Normal)
    by (rewrite attempt_exit, Ho; discriminate).
  assert (R2 = []).
  { destruct (rounds_split _ _ _ HR) as [_ [H|[R2' H]]]; [assumption|].
    exfalso. assert (Hnext : In (t + 1) AllRounds).
    { rewrite HR, H, in_app_iff. right; right; now left. }
    destruct (rounds_continue (t + 1) t Hnext) as [_ Hr]; [|].
    - apply in_rounds in Ht; lia.
    - assert (Htrue : reached (Round t) = true)
        by (apply for_loop_exit_reached; exists s; eauto).
      congruence. }
  subst R2.
  destruct (tries_split _ _ _ _ HT) as [_ HT2].
  rewrite (HT2 Hexit) in HT.
  destruct (body_at_break _ _ _ _ _ HR HT) as (Hbody & Hc & Hnr).
  cbn [flat_map] in Hbody. rewrite app_nil_r in Hbody.
  eexists. split; [exact Hbody | split; [exact Hc | split; [exact Hnr|]]].
  destruct run_outcome as [-> _].
  apply (returned_after_last _ _ _ _ HR HT).
  rewrite attempt_exit, Ho. discriminate.
Qed.

Lemma only_last_differs {A} (P : A -> Prop) before h after others last :
  Forall P others -> ~ P h ->
  before ++ h :: after = others ++ [last] ->
  after = [] /\ before = others.
Proof.
  intros Hothers Hh. revert before.
  induction others as [|x others IH]; intros before H.
  - destruct before as [|y before]; cbn in H.
    + injection H as _ ->. now split.
    + injection H as _ H. destruct before; discriminate.
  - destruct before as [|y before]; cbn in H; injection H as -> H.
    + exfalso. apply Hh. now inversion Hothers.
    + inversion Hothers; subst. destruct (IH H3 _ H) as [-> ->]. now split.
Qed.

(** C2.  Exactly one row is the destination's, and it is the last row, if
    and only if the destination answers one of the requests sent (their ttl
    lies between 1 and [max_hops]).  A row of the destination is never
    followed by another row.  Once the destination has answered, nothing
    more is sent: the trace ends with that attempt and the closing line,
    and the call returns. *)
Theorem destination_row_ends_the_rows :
  let rows := hops (fst Run) in
  ((exists before h,
      rows = before ++ [h] /\ reached_destination h = true /\
      Forall (fun x => reached_destination x = false) before) <->
   (exists request reply request_time,
      In (Send request) (fst Run) /\ 1 <= ttl request <= max_hops /\
      probe_outcome sock timeout request = Reply reply request_time)) /\
  (forall before h after,
     rows = before ++ h :: after -> reached_destination h = true ->
     after = [] /\ Forall (fun x => reached_destination x = false) before) /\
  (forall request reply request_time,
     In (Send request) (fst Run) ->
     probe_outcome sock timeout request = Reply reply request_time ->
     snd Run = Returned /\
     exists before,
       fst Run =
       before ++
       [Send request; Receive request timeout;
        PrintSource (ttl request) (source reply)
          (getfqdn host (source reply));
        PrintRtt AfterReply (rtt reply request_time);
        PrintCompleted]).
Proof.
  cbn zeta.
  assert (Hrows : forall t s r rt,
            In (Send (Request t s)) (fst Run) ->
            outcome_of t s = Reply r rt ->
            exists before h,
              hops (fst Run) = before ++ [h] /\
              reached_destination h = true /\
              Forall (fun x => reached_destination x = false) before).
  { intros t s r rt Hsent Ho.
    destruct (reply_is_last t s r rt Hsent Ho) as (tr & Hbody & Hc & Hnr & _).
    rewrite hops_run, Hbody, hops_app, hops_attempt, Ho.
    - eexists _, _. split; [reflexivity | split; [reflexivity | exact Hnr]].
    - assumption.
    - rewrite <- (app_nil_r (trace _)).
      apply self_contained_settled;
        [apply self_contained_attempt | apply settled_nil]. }
  assert (Hreached : forall h,
            In h (hops (fst Run)) -> reached_destination h = true ->
            exists t s r rt,
              In (Send (Request t s)) (fst Run) /\
              outcome_of t s = Reply r rt).
  { intros h Hh Hr. rewrite hops_run in Hh.
    apply in_hops_body in Hh as (t & s & Hsent & Hh).
    apply in_hops_attempt in Hh as [_ [Hh _]].
    destruct (Hh Hr) as (r & rt & Ho). exists t, s, r, rt.
    split; [now apply sent_in_run | assumption]. }
  split; [split|split].
  - intros (before & h & Heq & Hr & _).
    destruct (Hreached h) as (t & s & r & rt & Hsent & Ho);
      [rewrite Heq, in_app_iff; right; now left | assumption|].
    exists (Request t s), r, rt. split; [assumption|]. split; [|assumption].
    apply sent_in_run, sent_in_body_iff in Hsent. cbn. tauto.
  - intros (request & r & rt & Hsent & _ & Ho).
    pose proof Hsent as Hform.
    apply sent_in_run, sent_in_body_form in Hform as (t & s & ->).
    now apply (Hrows t s r rt).
  - intros before h after Heq Hr.
    destruct (Hreached h) as (t & s & r & rt & Hsent & Ho);
      [rewrite Heq, in_app_iff; right; now left | assumption|].
    destruct (Hrows t s r rt Hsent Ho) as (others & last & Hl & _ & Hnr).
    rewrite Hl in Heq. symmetry in Heq.
    apply (only_last_differs _ _ _ _ _ _ Hnr) in Heq as [-> ->].
    + now split.
    + rewrite Hr. discriminate.
  - intros request r rt Hsent Ho.
    pose proof Hsent as Hform.
    apply sent_in_run, sent_in_body_form in Hform as (t & s & ->).
    destruct (reply_is_last t s r rt Hsent Ho) as (tr & Hbody & _ & _ & Hret).
    split; [assumption|].
    rewrite run_trace, Hret, Hbody, (attempt_reply t s false r rt Ho).
    eexists (_ :: _ :: tr). cbn [app ttl request_of].
    rewrite <- app_assoc. reflexivity.
Qed.

(** *** What stands next to what *)

Lemma split_before_tail {A} (e : A) X tail before after :
  ~ In e tail ->
  X ++ tail = before ++ e :: after ->
  exists after', X = before ++ e :: after' /\ after = after' ++ tail.
Proof.
  intros Hne H. apply app_eq_app in H as [l [[HX Ht]|[Hb Ht]]].
  - destruct l as [|e' l]; cbn in Ht.
    + exfalso. apply Hne. rewrite <- Ht. now left.
    + injection Ht as <- ->.
      eexists. split; [exact HX | reflexivity].
  - exfalso. apply Hne. rewrite Ht, in_app_iff. right; now left.
Qed.

Lemma split_unique {A} (e : A) l1 l2 before after :
  ~ In e l1 ->
  l1 ++ e :: l2 = before ++ e :: after ->
  (before = l1 /\ after = l2) \/ In e l2.
Proof.
  revert before; induction l1 as [|x l1 IH]; intros before Hne H.
  - destruct before as [|y before]; cbn in H.
    + left. split; [reflexivity | congruence].
    + right. injection H as _ ->. rewrite in_app_iff. right; now left.
  - destruct before as [|y before]; cbn in H.
    + exfalso. apply Hne. left. congruence.
    + injection H as -> H. destruct (IH before) as [[-> ->]|Hin]; auto.
      intros Hin. apply Hne. now right.
Qed.

Local Abbreviation Tail :=
  (match snd Run with Returned => [PrintCompleted] | _ => [] end).

Lemma locate e before after :
  in_the_loops e ->
  fst Run = before ++ e :: after ->
  exists R1 t R2 T1 s T2 q1 q2,
    AllRounds = R1 ++ t :: R2 /\
    Tries t (range count) = T1 ++ s :: T2 /\
    trace (Attempt t s false) = q1 ++ e :: q2 /\
    before =
      PrintHeader target ip_address max_hops
        :: NewSocket (is_ipv6_address host ip_address)
        :: (flat_map (fun t' => trace (Round t')) R1 ++
            flat_map (fun k => trace (Attempt t k false)) T1) ++ q1 /\
    after =
      q2 ++ flat_map (fun k => trace (Attempt t k false)) T2 ++
      flat_map (fun t' => trace (Round t')) R2 ++ Tail.
Proof.
  intros He H. rewrite run_trace in H.
  destruct before as [|e1 [|e2 before]]; cbn [app] in H.
  - injection H as <- _. destruct He.
  - injection H as _ <- _. destruct He.
  - injection H as <- <- H.
    apply split_before_tail in H as (after' & Hbody & ->).
    2: { destruct (snd Run); cbn; intros [<-|[]] || intros []; destruct He. }
    rewrite while_loop_trace in Hbody.
    apply flat_map_split in Hbody
      as (R1 & t & R2 & p1 & p2 & HR & Hround & -> & ->).
    rewrite for_loop_trace in Hround.
    apply flat_map_split in Hround
      as (T1 & s & T2 & q1 & q2 & HT & Hatt & -> & ->).
    exists R1, t, R2, T1, s, T2, q1, q2.
    repeat (split; [assumption|]). split.
    + now rewrite !app_assoc.
    + now rewrite <- !app_assoc.
Qed.

Lemma attempt_head t s hr :
  exists rest, trace (Attempt t s hr) = Send (Request t s) :: rest.
Proof. socket_cases t s; eauto. Qed.

Lemma round_head t :
  0 < count -> exists rest, trace (Round t) = Send (Request t 0) :: rest.
Proof.
  intros Hcount. rewrite for_loop_trace. unfold range.
  destruct (Z.to_nat count) eqn:Hn; [lia|].
  cbn [range_from tries flat_map].
  destruct (attempt_head t 0 false) as (rest & ->). cbn [app]. eauto.
Qed.

Lemma what_comes_next R1 t R2 T1 s :
  AllRounds = R1 ++ t :: R2 ->
  Tries t (range count) = T1 ++ [s] ->
  exit (Attempt t s false) <> Raise ->
  let rest := flat_map (fun t' => trace (Round t')) R2 ++ Tail in
  rest = [PrintCompleted] \/
  exists rest', rest = Send (Request (t + 1) 0) :: rest'.
Proof.
  intros HR HT Ho rest. unfold rest.
  destruct (rounds_split _ _ _ HR) as [_ [->|[R2' ->]]].
  - left. destruct run_outcome as [-> _].
    now rewrite (returned_after_last _ _ _ _ HR HT Ho).
  - right. cbn [flat_map].
    assert (Hs : In s (Tries t (range count)))
      by (rewrite HT, in_app_iff; right; now left).
    unfold range in Hs. apply in_tries_range in Hs as [Hs _].
    destruct (round_head (t + 1)) as (r & ->); [lia|].
    cbn [app]. eauto.
Qed.

Lemma nothing_after_a_raise R1 t R2 T1 s T2 :
  AllRounds = R1 ++ t :: R2 ->
  Tries t (range count) = T1 ++ s :: T2 ->
  exit (Attempt t s false) = Raise ->
  T2 = [] /\ R2 = [] /\ snd Run = Raised.
Proof.
  intros HR HT Hx.
  assert (Ht : In t AllRounds)
    by (rewrite HR, in_app_iff; right; now left).
  assert (Hs : In s (Tries t (range count)))
    by (rewrite HT, in_app_iff; right; now left).
  split; [|split].
  - apply (tries_split _ _ _ _ HT). congruence.
  - destruct (rounds_split _ _ _ HR) as [_ [H|[R2' H]]]; [assumption|].
    exfalso. assert (Hnext : In (t + 1) AllRounds).
    { rewrite HR, H, in_app_iff. right; right; now left. }
    destruct (rounds_continue (t + 1) t Hnext) as [Hgo _].
    + apply in_rounds in Ht; lia.
    + apply Hgo, for_loop_exit_reached. now exists s.
  - apply run_raised. exists t, s. split; [|assumption].
    apply sent_in_run, sent_in_body. now split.
Qed.

Lemma tries_split_last t T1 s T2 :
  Tries t (range count) = T1 ++ s :: T2 -> count - 1 <= s -> T2 = [].
Proof.
  intros HT Hs.
  destruct (tries_prefix t (Z.to_nat count) 0) as (m & _ & Hm).
  fold (range count) in Hm. pose proof HT as HT'. rewrite Hm in HT.
  pose proof (range_from_split _ _ _ _ _ HT) as (_ & _ & Hl2).
  destruct T2 as [|k T2]; [reflexivity|]. exfalso.
  cbn [List.length range_from] in Hl2. injection Hl2 as -> _.
  assert (Hnext : In (s + 1) (Tries t (range count))).
  { rewrite HT', in_app_iff. right; right; now left. }
  unfold range in Hnext. apply in_tries_range in Hnext. lia.
Qed.


(** *** How many requests *)

Lemma while_loop_fuel fuel fuel' t hr :
  (Z.to_nat (max_hops + 1 - t) <= fuel)%nat ->
  (Z.to_nat (max_hops + 1 - t) <= fuel')%nat ->
  While fuel t hr = While fuel' t hr.
Proof.
  revert fuel' t hr; induction fuel as [|fuel IH]; intros fuel' t hr H H';
    destruct fuel' as [|fuel']; cbn [while_loop];
    destruct (negb hr && (t <=? max_hops)) eqn:Hc; try reflexivity;
    try (apply andb_prop in Hc as [_ Hc]; apply Z.leb_le in Hc; lia).
  destruct (exit (For t (range count) hr)); try reflexivity;
    now rewrite (IH fuel') by lia.
Qed.

Lemma sent_flat_map {A} (f : A -> list event) l :
  sent (flat_map f l) = flat_map (fun x => sent (f x)) l.
Proof.
  induction l as [|x l IH]; [reflexivity|].
  cbn [flat_map]. now rewrite sent_app, IH.
Qed.

Lemma sent_body :
  sent Body =
  flat_map (fun t => map (Request t) (Tries t (range count))) AllRounds.
Proof.
  rewrite while_loop_trace, sent_flat_map.
  apply flat_map_ext. intros t.
  rewrite for_loop_trace, sent_flat_map.
  induction (Tries t (range count)) as [|k l IH]; [reflexivity|].
  cbn [flat_map map]. now rewrite sent_attempt, IH.
Qed.

Lemma sent_run : sent (fst Run) = sent Body.
Proof.
  rewrite run_trace. cbn [sent]. rewrite sent_app.
  destruct (snd Run); cbn [sent]; now rewrite app_nil_r.
Qed.

Lemma tries_length t :
  Tries t (range count) =
  range_from 0 (List.length (Tries t (range count))) /\
  (List.length (Tries t (range count)) <= Z.to_nat count)%nat.
Proof.
  destruct (tries_prefix t (Z.to_nat count) 0) as (m & Hm & Heq).
  fold (range count) in Heq. rewrite Heq, length_range_from. now split.
Qed.

Lemma length_flat_map_le {A B} (f : A -> list B) l c :
  (forall x, (List.length (f x) <= c)%nat) ->
  (List.length (flat_map f l) <= List.length l * c)%nat.
Proof.
  intros H. induction l as [|x l IH]; [cbn; lia|].
  cbn [flat_map List.length]. rewrite length_app. specialize (H x). lia.
Qed.

Lemma sent_run_shape :
  exists (m : nat) (k : Z -> nat),
    (m <= Z.to_nat max_hops)%nat /\
    (forall t, (k t <= Z.to_nat count)%nat) /\
    sent (fst Run) =
    flat_map (fun t => map (Request t) (range_from 0 (k t)))
      (range_from 1 m).
Proof.
  destruct (rounds_prefix (Z.to_nat max_hops) 1) as (m & Hm & Heq).
  exists m, (fun t => List.length (Tries t (range count))).
  split; [lia|]. split; [intros t; apply tries_length|].
  rewrite sent_run, sent_body, Heq. apply flat_map_ext. intros t.
  now rewrite <- (proj1 (tries_length t)).
Qed.

(** Within one call no request is sent twice: this is why a function of
    the request describes the socket. *)
Lemma NoDup_range_from n start : NoDup (range_from start n).
Proof.
  revert start; induction n as [|n IH]; intros start; cbn [range_from];
    constructor; [rewrite in_range_from; lia | apply IH].
Qed.

Lemma sent_run_distinct : NoDup (sent (fst Run)).
Proof.
  destruct sent_run_shape as (m & k & _ & _ & ->).
  generalize 1 as start.
  induction m as [|m IH]; intros start; cbn [range_from flat_map];
    [constructor|].
  apply NoDup_app; [| apply IH |].
  - apply NoDup_map_NoDup_ForallPairs; [|apply NoDup_range_from].
    intros x y _ _ H. unfold request_of in H. now injection H.
  - intros request H1 H2.
    apply in_map_iff in H1 as (x & <- & _).
    apply in_flat_map in H2 as (t & Ht & H2).
    apply in_map_iff in H2 as (y & H2 & _).
    apply in_range_from in Ht. unfold request_of in H2.
    injection H2 as _ H2. lia.
Qed.

(** * Further properties of the call *)

Lemma land_65535 x : Z.land x 65535 = x mod 65536.
Proof. exact (Z.land_ones x 16 ltac:(lia)). Qed.

(** X1.  Every request that is sent was constructed with the resolved
    address, the [id] of the call, a ttl between 1 and [max_hops] and a
    sequence number between 0 and [count - 1], and no two requests of a call
    were constructed with the same ttl and sequence number.  The object
    keeps [id] and the sequence number modulo 65536: it carries the [id] of
    the call when that lies between 0 and 65535, and with [count] up to
    65536 no two requests of a call have the same ttl and the same stored
    sequence number. *)
Theorem requests_carry_the_arguments :
  (forall request,
     In (Send request) (fst Run) ->
     request = Request (ttl request) (sequence request) /\
     destination request = ip_address /\
     1 <= ttl request <= max_hops /\ 0 <= sequence request < count /\
     stored_id request = id mod 65536 /\
     stored_sequence request = sequence request mod 65536) /\
  NoDup (sent (fst Run)) /\
  (0 <= id < 65536 ->
   forall request, In (Send request) (fst Run) -> stored_id request = id) /\
  (count <= 65536 ->
   NoDup (map (fun request => (ttl request, stored_sequence request))
            (sent (fst Run)))).
Proof.
  assert (Hform : forall request,
            In (Send request) (fst Run) ->
            request = Request (ttl request) (sequence request) /\
            1 <= ttl request <= max_hops /\ 0 <= sequence request < count).
  { intros request H. apply sent_in_run in H. pose proof H as Hform.
    apply sent_in_body_form in Hform as (t & s & ->).
    apply sent_in_body_iff in H. cbn. repeat split; lia. }
  split; [|split; [apply sent_run_distinct|split]].
  - intros request H. destruct (Hform request H) as (Hreq & Ht & Hs).
    split; [assumption|]. split; [now rewrite Hreq|].
    split; [assumption|]. split; [assumption|].
    unfold stored_id, stored_sequence. rewrite !land_65535.
    split; [now rewrite Hreq | reflexivity].
  - intros Hid request H. destruct (Hform request H) as (Hreq & _).
    unfold stored_id. rewrite land_65535, Hreq. unfold request_of. cbn.
    apply Z.mod_small. exact Hid.
  - intros Hcount.
    apply NoDup_map_NoDup_ForallPairs; [|apply sent_run_distinct].
    intros x y Hx Hy Heq. apply in_sent in Hx, Hy.
    destruct (Hform x Hx) as (Hxr & _ & Hxs).
    destruct (Hform y Hy) as (Hyr & _ & Hys).
    unfold stored_sequence in Heq. rewrite !land_65535 in Heq.
    rewrite !Z.mod_small in Heq by lia.
    injection Heq as Ht Hsq. rewrite Hxr, Hyr, Ht, Hsq. reflexivity.
Qed.

Lemma attempt_calls t s hr :
  (trace (Attempt t s hr) = [Send (Request t s)] /\
   forall request_time, send sock (Request t s) <> Sent request_time) \/
  exists request_time rest,
    send sock (Request t s) = Sent request_time /\
    trace (Attempt t s hr) =
      Send (Request t s) :: Receive (Request t s) timeout :: rest /\
    forall request q, ~ In (Receive request q) rest.
Proof.
  socket_cases t s; try (left; split; [reflexivity | discriminate]);
    right; try destruct (s >=? count - 1); cbn [app];
    eexists _, _; (split; [reflexivity|]); (split; [reflexivity|]);
    intros request q Hin; cbn in Hin; intuition discriminate.
Qed.

(** X2.  [sock.receive] is called right after [sock.send] of the same request
    returned, with the [timeout] of the call, and in no other place: every
    [Receive] in the trace stands right after the [Send] of its request,
    and a request that was sent is waited for exactly when [send]
    returned. *)
Theorem receive_follows_its_send :
  let run :=
    verbose_traceroute host target count interval timeout id max_hops in
  (forall before request q after,
     fst run = before ++ Receive request q :: after ->
     q = timeout /\
     exists before' request_time,
       before = before' ++ [Send request] /\
       send sock request = Sent request_time) /\
  (forall request,
     In (Send request) (fst run) ->
     (In (Receive request timeout) (fst run) <->
      exists request_time, send sock request = Sent request_time)).
Proof.
  cbn zeta.
  split.
  - intros before request q after H.
    apply locate in H
      as (R1 & t & R2 & T1 & s & T2 & q1 & q2 & HR & HT & Hatt & -> & ->);
      [|exact I].
    assert (Hin : In (Receive request q) (trace (Attempt t s false)))
      by (rewrite Hatt, in_app_iff; right; now left).
    pose proof Hin as Hreq. apply in_attempt in Hreq as [-> ->].
    split; [reflexivity|].
    destruct (attempt_calls t s false)
      as [[Htr _]|(rt & rest & Hs & Htr & Hrest)].
    + rewrite Htr in Hin. cbn in Hin. intuition discriminate.
    + rewrite Htr in Hatt.
      apply (split_unique _ [Send (Request t s)] rest) in Hatt
        as [[-> _]|Hin'].
      * exists (PrintHeader target ip_address max_hops
                  :: NewSocket (is_ipv6_address host ip_address)
                  :: flat_map (fun t' => trace (Round t')) R1 ++
                     flat_map (fun k => trace (Attempt t k false)) T1), rt.
        split; [reflexivity | assumption].
      * now apply Hrest in Hin'.
      * cbn. intuition discriminate.
  - intros request Hsent. pose proof Hsent as Hform.
    apply sent_in_run, sent_in_body_form in Hform as (t & s & ->).
    destruct (attempt_calls t s false)
      as [[Htr Hs]|(rt & rest & Hs & Htr & Hrest)].
    + split; [|intros (rt & Hrt); now apply Hs in Hrt].
      intros H. exfalso.
      apply in_run_body in H as [H|[H|[H|[H _]]]]; try discriminate.
      apply in_body in H as (t' & s' & _ & _ & H).
      pose proof H as Hreq. apply in_attempt in Hreq as [Hreq _].
      unfold request_of in Hreq. injection Hreq as <- <-.
      rewrite Htr in H. cbn in H. intuition discriminate.
    + split; [intros _; eauto|]. intros _.
      apply in_run_body. right; right; left.
      apply sent_in_run, sent_in_body in Hsent as [Ht Hs'].
      apply in_body. exists t, s. repeat split; try assumption.
      rewrite Htr. right; now left.
Qed.

Lemma body_events e : In e Body -> in_the_loops e.
Proof.
  intros He. apply in_body in He as (t & s & _ & _ & He).
  apply in_attempt in He. destruct e; try contradiction; exact I.
Qed.

Lemma attempt_fatal t s hr :
  outcome_of t s = Fatal ->
  (send sock (Request t s) = SendError /\
   trace (Attempt t s hr) = [Send (Request t s)]) \/
  (receive sock (Request t s) timeout = ReceiveError /\
   trace (Attempt t s hr) =
     [Send (Request t s); Receive (Request t s) timeout]).
Proof. socket_cases t s; try discriminate; auto. Qed.


(** X4.  With [count] or [max_hops] zero or negative the loops do nothing:
    the call prints the heading, creates the socket, prints the closing
    line and returns, without sending a request. *)
Theorem no_request_without_attempts_or_hops :
  let run :=
    verbose_traceroute host target count interval timeout id max_hops in
  count <= 0 \/ max_hops <= 0 ->
  run =
  ([PrintHeader target ip_address max_hops;
    NewSocket (is_ipv6_address host ip_address);
    PrintCompleted], Returned).
Proof.
  cbn zeta.
  intros Hle.
  assert (Hnone : forall t s, ~ In (Send (Request t s)) (fst Run)).
  { intros t s H. apply sent_in_run, sent_in_body_iff in H. lia. }
  assert (Hbody : Body = []).
  { destruct Body as [|e tr] eqn:Hb; [reflexivity|]. exfalso.
    assert (He : In e Body) by (rewrite Hb; now left).
    apply in_run_attempt in He as (t & s & Hsent & _).
    now apply Hnone in Hsent. }
  assert (Hret : snd Run = Returned).
  { destruct run_outcome as [_ Hfuel].
    destruct (snd Run) eqn:Hsnd; [reflexivity | exfalso | congruence].
    apply run_raised in Hsnd as (t & s & Hsent & _).
    now apply Hnone in Hsent. }
  rewrite (surjective_pairing Run), run_trace, Hbody, Hret. reflexivity.
Qed.

(** X6.  A ttl has a row exactly when one of the attempts made at it is
    answered, or its last attempt ([sequence = count - 1]) is made and
    times out; and it never has more than one row. *)
Theorem when_a_ttl_has_a_row t :
  ((exists h, In h (hops (fst Run)) /\ hop_ttl h = t) <->
   exists s,
     In (Send (Request t s)) (fst Run) /\
     (is_response (outcome_of t s) = true \/
      (s = count - 1 /\ outcome_of t s = Timeout))) /\
  (List.length (filter (fun h => (hop_ttl h =? t)%Z) (hops (fst Run))) <= 1)%nat.
Proof.
  split; [split|].
  - intros (h & Hh & <-). rewrite hops_run in Hh.
    apply in_hops_body in Hh as (t & s & Hsent & Hh).
    pose proof Hsent as Hs. apply sent_in_body_iff in Hs as (_ & Hs & _).
    pose proof (in_hops_attempt _ _ _ _ Hh) as [-> _].
    exists s. split; [now apply sent_in_run|].
    rewrite hops_attempt in Hh.
    destruct (outcome_of t s) as [reply rt|reply rt| | |]; auto;
      try contradiction.
    destruct (Z.geb_spec s (count - 1)); [|contradiction].
    right. split; [lia | reflexivity].
  - intros (s & Hsent & Ho). rewrite hops_run.
    assert (Hrow : exists h, In h (hops (trace (Attempt t s false)))).
    { rewrite hops_attempt.
      destruct Ho as [Ho|[-> Ho]].
      - destruct (outcome_of t s); try discriminate;
          eexists; left; reflexivity.
      - rewrite Ho, Z.geb_leb, Z.leb_refl. eexists; left; reflexivity. }
    destruct Hrow as (h & Hh). exists h. split.
    + apply in_hops_body. exists t, s.
      split; [now apply sent_in_run | assumption].
    + now apply in_hops_attempt in Hh.
  - rewrite hops_run, hops_body.
    destruct (rounds_prefix (Z.to_nat max_hops) 1) as (m & _ & Hm).
    rewrite Hm.
    destruct (in_dec Z.eq_dec t (range_from 1 m)) as [Hin|Hout].
    + rewrite (filter_flat_map_range _ hop_ttl)
        by (try assumption; intros x h Hh; now apply in_hops_round in Hh).
      destruct (hops_round_at_most_one t) as [->|[h ->]]; cbn; lia.
    + rewrite (filter_flat_map_none _ hop_ttl)
        by (try assumption; intros x h Hh; now apply in_hops_round in Hh).
      cbn. lia.
Qed.

(** X7.  The address and the name of every reply received are printed, whatever
    the reply is (an echo reply, Time Exceeded or another error message),
    and nothing else is printed as an address: a ttl, an address and a name
    are printed exactly when a request sent at this ttl received a reply
    from this address, and the name is what [getfqdn] gives for it. *)
Theorem every_reply_is_displayed t src name :
  In (PrintSource t src name) (fst Run) <->
  exists s request_time reply,
    In (Send (Request t s)) (fst Run) /\
    send sock (Request t s) = Sent request_time /\
    receive sock (Request t s) timeout = Received reply /\
    src = source reply /\ name = getfqdn host src.
Proof.
  split.
  - intros H. apply in_run_body in H as [H|[H|[H|[H _]]]];
      try discriminate.
    apply in_run_attempt in H as (t' & s & Hsent & H).
    pose proof H as Hprint.
    apply in_attempt in Hprint as (-> & -> & reply & Hrecv & ->).
    destruct (attempt_calls t' s false)
      as [[Htr _]|(rt & rest & Hs & _)].
    + rewrite Htr in H. cbn in H. intuition discriminate.
    + exists s, rt, reply. auto.
  - intros (s & rt & reply & Hsent & Hs & Hrecv & -> & ->).
    apply in_run_body. right; right; left.
    apply sent_in_run, sent_in_body in Hsent as [Ht Hs'].
    apply in_body. exists t, s. repeat split; try assumption.
    unfold attempt. rewrite Hs, Hrecv.
    destruct (raise_for_status reply); cbn; auto.
Qed.

(** X8.  No ttl is skipped and the search is not given up early: when a request
    is sent at a ttl, the first request of every smaller ttl was sent; and
    a call that returns, with [count] and [max_hops] positive, has got the
    destination's reply or has sent the first request of ttl
    [max_hops]. *)
Theorem the_search_goes_up_to_max_hops :
  (forall t s,
     In (Send (Request t s)) (fst Run) ->
     forall t', 1 <= t' <= t -> In (Send (Request t' 0)) (fst Run)) /\
  (0 < count -> 0 < max_hops -> snd Run = Returned ->
   (exists request reply request_time,
      In (Send request) (fst Run) /\
      probe_outcome sock timeout request = Reply reply request_time) \/
   In (Send (Request max_hops 0)) (fst Run)).
Proof.
  split.
  - intros t s H t' Ht'.
    apply sent_in_run, sent_in_body_iff in H as ((Ht & Hprev) & Hs & _).
    apply sent_in_run, sent_in_body_iff. split; [split; [lia|]|split; [lia|]].
    + intros t'' Ht''. apply Hprev. lia.
    + intros k Hk. lia.
  - intros Hcount Hhops Hret.
    assert (Hx : forall t, In t AllRounds -> exit (Round t) <> Raise).
    { intros t Ht Hraise. destruct run_outcome as [Hsnd _].
      rewrite Hsnd in Hret.
      destruct (while_loop_outcome (Z.to_nat max_hops) 1) as [_ Hw]; [lia|].
      assert (Hr : snd (While (Z.to_nat max_hops) 1 false) = Raised)
        by (apply Hw; now exists t).
      congruence. }
    assert (Hfirst : forall t, In 0 (Tries t (range count))).
    { intros t. unfold range. apply in_tries_range. split; [lia|].
      intros k Hk. lia. }
    destruct (rounds_prefix (Z.to_nat max_hops) 1) as (m & _ & Hm).
    destruct (rounds_end m Hm Hx) as [Hend|[Hpos Hend]].
    + right. apply sent_in_run, sent_in_body. split; [|apply Hfirst].
      rewrite Hm. apply in_range_from. lia.
    + left. apply for_loop_exit_reached in Hend as (s & Hs & r & rt & Ho).
      exists (Request (Z.of_nat m) s), r, rt. split; [|assumption].
      apply sent_in_run, sent_in_body. split; [|assumption].
      rewrite Hm. apply in_range_from. lia.
Qed.

Lemma slept_app tr1 tr2 : slept (tr1 ++ tr2) = slept tr1 ++ slept tr2.
Proof.
  induction tr1 as [|e tr1 IH]; [reflexivity|].
  destruct e; cbn; now rewrite ?IH.
Qed.

Lemma slept_flat_map {A} (f : A -> list event) l :
  slept (flat_map f l) = flat_map (fun x => slept (f x)) l.
Proof.
  induction l as [|x l IH]; [reflexivity|].
  cbn [flat_map]. now rewrite slept_app, IH.
Qed.

Lemma map_filter_flat_map {A B C} (f : B -> C) (p : B -> bool)
    (g : A -> list B) l :
  map f (filter p (flat_map g l)) =
  flat_map (fun x => map f (filter p (g x))) l.
Proof.
  induction l as [|x l IH]; [reflexivity|].
  cbn [flat_map]. now rewrite filter_app, map_app, IH.
Qed.

Lemma slept_attempt t s hr :
  slept (trace (Attempt t s hr)) =
  map (fun _ => interval) (filter is_gateway_row (hops (trace (Attempt t s hr)))).
Proof.
  socket_cases t s; try destruct (s >=? count - 1); reflexivity.
Qed.

(** X9.  [sleep] is called once for each row of a gateway, each time for
    [interval]: the time the call spends sleeping is [interval] times the
    number of gateways displayed. *)
Theorem one_sleep_per_gateway_row :
  slept (fst Run) =
  map (fun _ => interval) (filter is_gateway_row (hops (fst Run))).
Proof.
  rewrite hops_run, hops_body, run_trace. cbn [slept].
  rewrite slept_app, while_loop_trace, slept_flat_map, map_filter_flat_map.
  replace (slept match snd Run with Returned => [PrintCompleted] | _ => [] end)
    with (@nil Q) by (destruct (snd Run); reflexivity).
  rewrite app_nil_r. apply flat_map_ext. intros t.
  rewrite for_loop_trace, slept_flat_map.
  rewrite <- for_loop_trace, hops_round, map_filter_flat_map.
  apply flat_map_ext. intros s. apply slept_attempt.
Qed.

Lemma round_goes_on t s :
  In (Send (Request t s)) Body ->
  exit (Attempt t s false) <> Raise ->
  (forall r rt, outcome_of t s <> Reply r rt) ->
  (exit (Attempt t s false) = Normal -> count - 1 <= s) ->
  exit (Round t) <> Raise /\ reached (Round t) = false.
Proof.
  intros Hsent Hfatal Hreply Hlast.
  apply sent_in_body_iff in Hsent as (_ & Hs & Hprev).
  assert (Hother : forall k, In k (Tries t (range count)) ->
            k = s \/ exit (Attempt t k false) = Normal /\ k < s).
  { intros k Hk. unfold range in Hk. apply in_tries_range in Hk as [Hk Hkp].
    destruct (Z.lt_trichotomy k s) as [Hlt|[->|Hgt]]; auto.
    - right. split; [apply Hprev|]; lia.
    - exfalso. assert (Hn : exit (Attempt t s false) = Normal)
        by (apply Hkp; lia).
      apply Hlast in Hn. lia. }
  split.
  - intros Hx. apply for_loop_exit_reached in Hx as (k & Hk & Ho).
    apply Hother in Hk as [->|[Hk _]]; [contradiction | congruence].
  - destruct (reached (Round t)) eqn:Hr; [exfalso|reflexivity].
    apply for_loop_exit_reached in Hr as (k & Hk & r & rt & Ho).
    apply Hother in Hk as [->|[Hk _]]; [now apply Hreply in Ho|].
    rewrite attempt_exit, Ho in Hk. discriminate.
Qed.


End Facts.

(** * Two sockets, two bounds *)

Section TwoSockets.

Variable host : Host.
Variables sock sock' : ICMPSocket.
Variable ip_address : string.
Variable count : Z.
Variables interval timeout : Q.
Variable id : Z.
Variable max_hops : Z.

Local Abbreviation alike request :=
  (send sock request = send sock' request /\
   receive sock request timeout = receive sock' request timeout).

Lemma attempt_alike t s hr :
  alike (request_of ip_address id t s) ->
  attempt host sock' ip_address count interval timeout id t s hr =
  attempt host sock ip_address count interval timeout id t s hr.
Proof. unfold attempt. now intros [-> ->]. Qed.

Lemma for_loop_alike t seqs hr :
  (forall s,
     In s (tries host sock ip_address count interval timeout id t seqs) ->
     alike (request_of ip_address id t s)) ->
  for_loop host sock' ip_address count interval timeout id t seqs hr =
  for_loop host sock ip_address count interval timeout id t seqs hr.
Proof.
  revert hr; induction seqs as [|s rest IH]; intros hr H; [reflexivity|].
  cbn [for_loop tries] in *.
  rewrite attempt_alike by (apply H; now left).
  rewrite (attempt_exit _ _ _ _ _ _ _ t s false) in H.
  rewrite (attempt_exit _ _ _ _ _ _ _ t s hr).
  destruct (probe_outcome sock timeout (request_of ip_address id t s));
    try destruct (sleep interval); try reflexivity;
    rewrite IH; try reflexivity; intros s' Hs'; apply H; now right.
Qed.

Lemma while_loop_alike fuel t hr :
  (forall t' s,
     In t' (rounds host sock ip_address count interval timeout id max_hops
              fuel t) ->
     In s (tries host sock ip_address count interval timeout id t'
             (range count)) ->
     alike (request_of ip_address id t' s)) ->
  while_loop host sock' ip_address count interval timeout id max_hops
    fuel t hr =
  while_loop host sock ip_address count interval timeout id max_hops
    fuel t hr.
Proof.
  revert t hr; induction fuel as [|fuel IH]; intros t hr H;
    [reflexivity|].
  destruct hr; [now rewrite !while_loop_reached|].
  cbn [while_loop rounds negb andb] in *.
  destruct (t <=? max_hops); [|reflexivity].
  rewrite for_loop_alike by (intros s Hs; apply (H t s); [now left | assumption]).
  destruct (exit (for_loop host sock ip_address count interval timeout id t
                    (range count) false)) eqn:Hx; try reflexivity;
    destruct (reached (for_loop host sock ip_address count interval timeout
                         id t (range count) false)) eqn:Hr;
    rewrite ?while_loop_reached; try reflexivity;
    rewrite IH; try reflexivity;
    intros t' s Ht' Hs; (apply (H t' s); [now right | assumption]).
Qed.

(** X11.  The loops consult the socket on the requests they send and on nothing
    else: a second socket that does with those requests what the first
    does gives the same trace and the same outcome. *)
Theorem only_the_requests_sent_matter :
  (forall request,
     In (Send request)
       (fst (while_loop host sock ip_address count interval timeout id
               max_hops (Z.to_nat max_hops) 1 false)) ->
     send sock request = send sock' request /\
     receive sock request timeout = receive sock' request timeout) ->
  while_loop host sock' ip_address count interval timeout id max_hops
    (Z.to_nat max_hops) 1 false =
  while_loop host sock ip_address count interval timeout id max_hops
    (Z.to_nat max_hops) 1 false.
Proof.
  intros H. apply while_loop_alike. intros t s Ht Hs.
  apply H, sent_in_body. now split.
Qed.

End TwoSockets.

Section TwoBounds.

Variable host : Host.
Variable sock : ICMPSocket.
Variable ip_address : string.
Variable count : Z.
Variables interval timeout : Q.
Variable id : Z.
Variables max_hops max_hops' : Z.
Hypothesis more : max_hops <= max_hops'.

Local Abbreviation While :=
  (while_loop host sock ip_address count interval timeout id max_hops).
Local Abbreviation While' :=
  (while_loop host sock ip_address count interval timeout id max_hops').
Local Abbreviation Round ttl :=
  (for_loop host sock ip_address count interval timeout id ttl (range count)
     false).

Lemma settled_while_loop mh fuel t :
  self_contained
    (fst (while_loop host sock ip_address count interval timeout id mh
            fuel t false)) /\
  settled
    (fst (while_loop host sock ip_address count interval timeout id mh
            fuel t false)).
Proof.
  assert (Hc : self_contained
                 (fst (while_loop host sock ip_address count interval
                         timeout id mh fuel t false))).
  { rewrite while_loop_trace. apply hops_flat_map.
    intros t'. apply self_contained_for_loop. }
  split; [assumption|].
  rewrite <- (app_nil_r (fst _)).
  apply self_contained_settled; [assumption | apply settled_nil].
Qed.

Lemma while_loop_more fuel fuel' t :
  (Z.to_nat (max_hops + 1 - t) <= fuel)%nat ->
  (Z.to_nat (max_hops' + 1 - t) <= fuel')%nat ->
  exists rest,
    fst (While' fuel' t false) = fst (While fuel t false) ++ rest /\
    settled rest /\
    (snd (While fuel t false) = Raised ->
     While' fuel' t false = While fuel t false) /\
    ((exists h, In h (hops (fst (While fuel t false))) /\
                reached_destination h = true) ->
     While' fuel' t false = While fuel t false).
Proof.
  revert fuel' t; induction fuel as [|fuel IH]; intros fuel' t Hf Hf'.
  - assert (Hgt : max_hops < t) by lia.
    cbn [while_loop negb andb].
    destruct (Z.leb_spec t max_hops); [lia|].
    exists (fst (While' fuel' t false)). cbn [fst snd app hops hops_from In].
    split; [reflexivity|]. split; [apply settled_while_loop|].
    split; [discriminate | intros (h & [] & _)].
  - destruct (Z.leb_spec t max_hops) as [Hle|Hgt].
    2: { cbn [while_loop negb andb].
         destruct (Z.leb_spec t max_hops); [lia|].
         exists (fst (While' fuel' t false)).
         cbn [fst snd app hops hops_from In].
         split; [reflexivity|]. split; [apply settled_while_loop|].
         split; [discriminate | intros (h & [] & _)]. }
    destruct fuel' as [|fuel']; [lia|].
    cbn [while_loop negb andb].
    destruct (Z.leb_spec t max_hops); [|lia].
    destruct (Z.leb_spec t max_hops'); [|lia].
    assert (Hsame : forall o,
              exists rest,
                trace (Round t) = trace (Round t) ++ rest /\
                settled rest /\
                (o = Raised -> (trace (Round t), o) = (trace (Round t), o)) /\
                ((exists h, In h (hops (trace (Round t))) /\
                            reached_destination h = true) ->
                 (trace (Round t), o) = (trace (Round t), o))).
    { intros o. exists []. rewrite app_nil_r.
      split; [reflexivity|]. split; [apply settled_nil|]. auto. }
    assert (Hgoes :
      reached (Round t) = false ->
      exists rest,
        trace (Round t) ++ fst (While' fuel' (t + 1) false) =
        (trace (Round t) ++ fst (While fuel (t + 1) false)) ++ rest /\
        settled rest /\
        (snd (While fuel (t + 1) false) = Raised ->
         (trace (Round t) ++ fst (While' fuel' (t + 1) false),
          snd (While' fuel' (t + 1) false)) =
         (trace (Round t) ++ fst (While fuel (t + 1) false),
          snd (While fuel (t + 1) false))) /\
        ((exists h,
            In h (hops (trace (Round t) ++ fst (While fuel (t + 1) false)))
            /\ reached_destination h = true) ->
         (trace (Round t) ++ fst (While' fuel' (t + 1) false),
          snd (While' fuel' (t + 1) false)) =
         (trace (Round t) ++ fst (While fuel (t + 1) false),
          snd (While fuel (t + 1) false)))).
    { intros Hr.
      destruct (IH fuel' (t + 1)) as (rest & Htr & Hs & Hraised & Hdest);
        try lia.
      exists rest. split; [now rewrite Htr, app_assoc|].
      split; [assumption|]. split.
      - intros Hw. now rewrite (Hraised Hw).
      - intros (h & Hh & Hreached).
        rewrite hops_app in Hh
          by (apply self_contained_for_loop || apply settled_while_loop).
        apply in_app_iff in Hh as [Hh|Hh].
        + apply in_hops_round in Hh as [_ Hh].
          rewrite (Hh Hreached) in Hr. discriminate.
        + rewrite Hdest by (now exists h). reflexivity. }
    destruct (exit (Round t)) eqn:Hx; cbn [fst snd];
      [| |apply Hsame];
      (destruct (reached (Round t)) eqn:Hr;
       [rewrite !while_loop_reached; cbn [fst snd]; rewrite !app_nil_r;
        apply Hsame
       |now apply Hgoes]).
Qed.

(** X12.  A larger [max_hops] only adds to what the loops do: the trace of the
    loops with the smaller bound is the beginning of the trace with the
    larger one, and so are its rows.  When the loops with the smaller bound
    raised, or displayed the destination, the larger bound changes
    nothing. *)
Theorem more_hops_only_add :
  let w := While (Z.to_nat max_hops) 1 false in
  let w' := While' (Z.to_nat max_hops') 1 false in
  (exists rest,
     fst w' = fst w ++ rest /\ hops (fst w') = hops (fst w) ++ hops rest) /\
  (snd w = Raised -> w' = w) /\
  ((exists h, In h (hops (fst w)) /\ reached_destination h = true) ->
   w' = w).
Proof.
  cbn zeta.
  destruct (while_loop_more (Z.to_nat max_hops) (Z.to_nat max_hops') 1)
    as (rest & Htr & Hs & Hraised & Hdest); try lia.
  split; [|split; assumption].
  exists rest. split; [assumption|].
  rewrite Htr. apply hops_app; [apply settled_while_loop | assumption].
Qed.

End TwoBounds.

Section TwoIntervals.

Variable host : Host.
Variable sock : ICMPSocket.
Variable ip_address : string.
Variable count : Z.
Variables interval interval' timeout : Q.
Variable id : Z.
Variable max_hops : Z.

(** [sleep] returns with both intervals, or raises with both. *)
Hypothesis same_sign : sleep interval' = sleep interval.

Local Abbreviation retimed := (map (with_interval interval')).

Lemma attempt_interval t s hr :
  attempt host sock ip_address count interval' timeout id t s hr =
  let r := attempt host sock ip_address count interval timeout id t s hr in
  mkResult (retimed (trace r)) (reached r) (exit r).
Proof.
  unfold attempt.
  destruct (send sock (request_of ip_address id t s)); try reflexivity.
  destruct (receive sock (request_of ip_address id t s) timeout)
    as [reply| | |]; try reflexivity.
  - destruct (raise_for_status reply); try reflexivity.
    now rewrite same_sign.
  - destruct (s >=? count - 1); reflexivity.
Qed.

Lemma for_loop_interval t seqs hr :
  for_loop host sock ip_address count interval' timeout id t seqs hr =
  let r := for_loop host sock ip_address count interval timeout id t seqs hr
  in mkResult (retimed (trace r)) (reached r) (exit r).
Proof.
  revert hr; induction seqs as [|s rest IH]; intros hr; [reflexivity|].
  cbn [for_loop]. rewrite attempt_interval. cbn zeta. cbn [trace reached exit].
  destruct (exit (attempt host sock ip_address count interval timeout id
                    t s hr)) eqn:Hx; cbn [trace reached exit];
    rewrite ?Hx; try reflexivity.
  rewrite IH. cbn zeta. cbn [trace reached exit]. now rewrite map_app.
Qed.

Lemma while_loop_interval fuel t hr :
  while_loop host sock ip_address count interval' timeout id max_hops
    fuel t hr =
  let w :=
    while_loop host sock ip_address count interval timeout id max_hops
      fuel t hr in
  (retimed (fst w), snd w).
Proof.
  revert t hr; induction fuel as [|fuel IH]; intros t hr; cbn [while_loop];
    destruct (negb hr && (t <=? max_hops)); try reflexivity.
  rewrite for_loop_interval. cbn zeta. cbn [trace reached exit].
  destruct (exit (for_loop host sock ip_address count interval timeout id
                    t (range count) hr)); try reflexivity;
    rewrite IH; cbn zeta; cbn [fst snd]; now rewrite map_app.
Qed.

Lemma hops_from_retimed pending tr :
  hops_from pending (retimed tr) = hops_from pending tr.
Proof.
  revert pending; induction tr as [|e tr IH]; intros pending;
    [reflexivity|].
  destruct e; cbn [map with_interval hops_from]; try apply IH.
  - destruct pending as [[[? ?] ?]|]; now rewrite IH.
  - now rewrite IH.
Qed.

Lemma sent_retimed tr : sent (retimed tr) = sent tr.
Proof.
  induction tr as [|e tr IH]; [reflexivity|].
  destruct e; cbn [map with_interval sent]; now rewrite ?IH.
Qed.

End TwoIntervals.

Section TwoNames.

Variable host : Host.
Variable names : string -> string.
Variable sock : ICMPSocket.
Variable ip_address : string.
Variable count : Z.
Variables interval timeout : Q.
Variable id : Z.
Variable max_hops : Z.

Local Abbreviation host' := (with_getfqdn names host).
Local Abbreviation renamed := (map (with_name names)).

Lemma attempt_names t s hr :
  attempt host' sock ip_address count interval timeout id t s hr =
  let r := attempt host sock ip_address count interval timeout id t s hr in
  mkResult (renamed (trace r)) (reached r) (exit r).
Proof.
  unfold attempt.
  destruct (send sock (request_of ip_address id t s)); try reflexivity.
  destruct (receive sock (request_of ip_address id t s) timeout)
    as [reply| | |]; try reflexivity.
  - destruct (raise_for_status reply); reflexivity.
  - destruct (s >=? count - 1); reflexivity.
Qed.

Lemma for_loop_names t seqs hr :
  for_loop host' sock ip_address count interval timeout id t seqs hr =
  let r := for_loop host sock ip_address count interval timeout id t seqs hr
  in mkResult (renamed (trace r)) (reached r) (exit r).
Proof.
  revert hr; induction seqs as [|s rest IH]; intros hr; [reflexivity|].
  cbn [for_loop]. rewrite attempt_names. cbn zeta. cbn [trace reached exit].
  destruct (exit (attempt host sock ip_address count interval timeout id
                    t s hr)) eqn:Hx; cbn [trace reached exit];
    rewrite ?Hx; try reflexivity.
  rewrite IH. cbn zeta. cbn [trace reached exit]. now rewrite map_app.
Qed.

Lemma while_loop_names fuel t hr :
  while_loop host' sock ip_address count interval timeout id max_hops
    fuel t hr =
  let w :=
    while_loop host sock ip_address count interval timeout id max_hops
      fuel t hr in
  (renamed (fst w), snd w).
Proof.
  revert t hr; induction fuel as [|fuel IH]; intros t hr; cbn [while_loop];
    destruct (negb hr && (t <=? max_hops)); try reflexivity.
  rewrite for_loop_names. cbn zeta. cbn [trace reached exit].
  destruct (exit (for_loop host sock ip_address count interval timeout id
                    t (range count) hr)); try reflexivity;
    rewrite IH; cbn zeta; cbn [fst snd]; now rewrite map_app.
Qed.

Lemma sent_renamed tr : sent (renamed tr) = sent tr.
Proof.
  induction tr as [|e tr IH]; [reflexivity|].
  destruct e; cbn [map with_name sent]; now rewrite ?IH.
Qed.

End TwoNames.

(** C8, as amended.  The name of a row that comes from a reply is what
    [getfqdn] returned for the address of the row: it is never absent,
    whatever the lookup found.  A row without address (the stars) has no
    name.  The name found has no part in what the call does: on a host
    where [getfqdn] gives other names the call does the same things in the
    same order, the names printed apart; it sends the same requests and
    ends the same way. *)
Theorem name_is_getfqdn_of_the_address
    host target count interval timeout id max_hops :
  let run :=
    verbose_traceroute host target count interval timeout id max_hops in
  (forall h,
     In h (hops (fst run)) ->
     match address h with
     | Some a => resolved_name h = Some (getfqdn host a)
     | None => resolved_name h = None
     end) /\
  (forall names,
     let run' :=
       verbose_traceroute (with_getfqdn names host) target count interval
         timeout id max_hops in
     run' = (map (with_name names) (fst run), snd run) /\
     sent (fst run') = sent (fst run)).
Proof.
  cbn zeta. split.
  - intros h. unfold verbose_traceroute at 1.
    destruct (ip_address_of host target) as [ip|] eqn:Hip; [|intros []].
    destruct (socket_for host ip) as [sock|] eqn:Hsock.
    + intros Hh.
      apply (name_of_a_row host sock ip count interval timeout id max_hops
               target Hip Hsock).
      unfold verbose_traceroute. now rewrite Hip, Hsock.
    + intros [].
  - intros names.
    assert (H : verbose_traceroute (with_getfqdn names host) target count
                  interval timeout id max_hops =
                (map (with_name names)
                   (fst (verbose_traceroute host target count interval
                           timeout id max_hops)),
                 snd (verbose_traceroute host target count interval timeout
                        id max_hops))).
    { unfold verbose_traceroute, ip_address_of, socket_for.
      cbn [with_getfqdn is_hostname resolve is_ipv6_address ICMPv4Socket
           ICMPv6Socket].
      destruct (if is_hostname host target
                then match resolve host target with
                     | Some addresses => nth_error addresses 0
                     | None => None
                     end
                else Some target) as [ip|]; [|reflexivity].
      destruct (if is_ipv6_address host ip then ICMPv6Socket host
                else ICMPv4Socket host) as [sock|]; [|reflexivity].
      rewrite while_loop_names. cbn zeta. cbn [fst snd].
      destruct (snd (while_loop host sock ip count interval timeout id
                       max_hops (Z.to_nat max_hops) 1 false));
        cbn [fst snd map with_name]; rewrite ?map_app; reflexivity. }
    split; [exact H|]. rewrite H. cbn [fst]. apply sent_renamed.
Qed.


(** X14.  The address that is probed.  A name that [is_hostname] accepts is
    replaced by the first address that [resolve] returns, whatever the
    others are; any other argument is probed as it is.  The heading shows
    the argument, the address probed and [max_hops], and every request
    goes to the address probed.  When [resolve] raises or returns no
    address, the call raises before it prints anything. *)
Theorem the_first_address_is_probed
    host address count interval timeout id max_hops :
  let run :=
    verbose_traceroute host address count interval timeout id max_hops in
  let probes ip :=
    (forall request,
       In (Send request) (fst run) -> destination request = ip) /\
    (forall a ip' mh,
       In (PrintHeader a ip' mh) (fst run) ->
       a = address /\ ip' = ip /\ mh = max_hops) /\
    hd_error (fst run) = Some (PrintHeader address ip max_hops) in
  if is_hostname host address then
    match resolve host address with
    | Some (first :: _) => probes first
    | _ => run = ([], Raised)
    end
  else probes address.
Proof.
  cbn zeta.
  assert (Hprobes : forall ip,
    ip_address_of host address = Some ip ->
    (forall request,
       In (Send request)
         (fst (verbose_traceroute host address count interval timeout id
                 max_hops)) ->
       destination request = ip) /\
    (forall a ip' mh,
       In (PrintHeader a ip' mh)
         (fst (verbose_traceroute host address count interval timeout id
                 max_hops)) ->
       a = address /\ ip' = ip /\ mh = max_hops) /\
    hd_error (fst (verbose_traceroute host address count interval timeout id
                     max_hops)) =
    Some (PrintHeader address ip max_hops)).
  { intros ip Hip.
    destruct (socket_for host ip) as [sock|] eqn:Hsock.
    - split; [|split].
      + intros request H.
        apply (sent_in_run host sock ip count interval timeout id max_hops
                 address Hip Hsock) in H.
        now apply sent_in_body_form in H as (t & s & ->).
      + intros a ip' mh H.
        apply (in_run_body host sock ip count interval timeout id max_hops
                 address Hip Hsock) in H as [H|[H|[H|[H _]]]];
          try discriminate.
        * injection H as -> -> ->. auto.
        * apply body_events in H as [].
      + now rewrite (run_trace host sock ip count interval timeout id
                       max_hops address Hip Hsock).
    - unfold verbose_traceroute. rewrite Hip, Hsock. cbn.
      split; [intros request [H|[]]; discriminate|].
      split; [|reflexivity].
      intros a ip' mh [H|[]]. injection H as -> -> ->. auto. }
  unfold ip_address_of in Hprobes.
  destruct (is_hostname host address) eqn:Hh; [|now apply Hprobes].
  destruct (resolve host address) as [[|first others]|] eqn:Hres;
    try (now apply Hprobes);
    unfold verbose_traceroute, ip_address_of; now rewrite Hh, Hres.
Qed.

(** * Claims about every call, also one that resolves nothing *)

(** C10.  With [count] and [max_hops] positive the call ends: the [while]
    loop makes at most [max_hops] passes (more fuel than that changes
    nothing, and the fuel never runs out), with ttl 1, 2, 3, ... in this
    order; each pass sends the requests of sequence 0, 1, 2, ... and at
    most [count] of them; so at most [max_hops * count] requests are
    sent. *)
Theorem at_most_max_hops_times_count_requests
    host address count interval timeout id max_hops :
  0 < count -> 0 < max_hops ->
  let run :=
    verbose_traceroute host address count interval timeout id max_hops in
  snd run <> OutOfFuel /\
  (forall sock ip fuel,
     (Z.to_nat max_hops <= fuel)%nat ->
     while_loop host sock ip count interval timeout id max_hops fuel 1 false
     = while_loop host sock ip count interval timeout id max_hops
         (Z.to_nat max_hops) 1 false) /\
  Z.of_nat (List.length (sent (fst run))) <= max_hops * count /\
  exists ip (m : nat) (k : Z -> nat),
    Z.of_nat m <= max_hops /\
    (forall t, Z.of_nat (k t) <= count) /\
    sent (fst run) =
    flat_map (fun t => map (request_of ip id t) (range_from 0 (k t)))
      (range_from 1 m).
Proof.
  intros Hcount Hhops run.
  assert (Hshape :
    snd run <> OutOfFuel /\
    exists ip (m : nat) (k : Z -> nat),
      Z.of_nat m <= max_hops /\
      (forall t, Z.of_nat (k t) <= count) /\
      sent (fst run) =
      flat_map (fun t => map (request_of ip id t) (range_from 0 (k t)))
        (range_from 1 m)).
  { unfold run. 
    destruct (ip_address_of host address) as [ip|] eqn:Hip.
    2: { unfold verbose_traceroute. rewrite Hip. split; [discriminate|].
         exists address, O, (fun _ => O). cbn. repeat split; lia. }
    destruct (socket_for host ip) as [sock|] eqn:Hsock.
    2: { unfold verbose_traceroute. rewrite Hip, Hsock.
         split; [discriminate|].
         exists address, O, (fun _ => O). cbn. repeat split; lia. }
    split.
    - eapply run_outcome; eassumption.
    - destruct (sent_run_shape host sock ip count interval timeout id
                  max_hops address Hip Hsock) as (m & k & Hm & Hk & Heq).
      exists ip, m, k. split; [lia|]. split; [|exact Heq].
      intros t. specialize (Hk t). lia. }
  destruct Hshape as (Hfuel & ip & m & k & Hm & Hk & Heq).
  split; [assumption|]. split; [|split].
  - intros sock ip' fuel Hle. apply while_loop_fuel; lia.
  - rewrite Heq.
    pose proof (length_flat_map_le
                  (fun t => map (request_of ip id t) (range_from 0 (k t)))
                  (range_from 1 m) (Z.to_nat count)) as Hlen.
    rewrite length_range_from in Hlen.
    assert (List.length
              (flat_map
                 (fun t => map (request_of ip id t) (range_from 0 (k t)))
                 (range_from 1 m)) <= m * Z.to_nat count)%nat.
    { apply Hlen. intros t. rewrite length_map, length_range_from.
      specialize (Hk t). lia. }
    nia.
  - exists ip, m, k. auto.
Qed.

(** X15.  The call creates one socket: an IPv6 socket when
    [is_ipv6_address] accepts the address probed, an IPv4 socket otherwise.
    It creates it after the address is known and the heading is printed,
    and before the first request; the loops create none.  When the address
    cannot be resolved the call raises before any socket exists; when the
    socket cannot be created the call raises after the heading. *)
Theorem one_socket_per_call
    host address count interval timeout id max_hops :
  let run :=
    verbose_traceroute host address count interval timeout id max_hops in
  match ip_address_of host address with
  | None => run = ([], Raised)
  | Some ip =>
    match socket_for host ip with
    | None => run = ([PrintHeader address ip max_hops], Raised)
    | Some sock =>
      exists rest,
        fst run =
        PrintHeader address ip max_hops
          :: NewSocket (is_ipv6_address host ip) :: rest /\
        (forall ipv6, ~ In (NewSocket ipv6) rest) /\
        (snd run = Returned -> exists rest', rest = rest' ++ [PrintCompleted])
    end
  end.
Proof.
  intros run. unfold run.
  destruct (ip_address_of host address) as [ip|] eqn:Hip.
  2: { unfold verbose_traceroute. now rewrite Hip. }
  destruct (socket_for host ip) as [sock|] eqn:Hsock.
  2: { unfold verbose_traceroute. now rewrite Hip, Hsock. }
  rewrite (run_trace host sock ip count interval timeout id max_hops
             address Hip Hsock).
  eexists. split; [reflexivity|]. split.
  - intros ipv6 H. apply in_app_iff in H as [H|H].
    + now apply body_events in H.
    + destruct (snd (verbose_traceroute _ _ _ _ _ _ _));
        cbn in H; intuition discriminate.
  - intros ->. eexists. reflexivity.
Qed.

(** * The claims on sample networks *)

(** C6.  An error message that is not Time Exceeded leaves the beginning of
    a row on the output: with [count = 2] and a gateway at ttl 1 that
    answers Destination Unreachable, lines 81-82 print the ttl, the address
    and the name, without a newline, at each of the two attempts, before
    [raise_for_status] raises.  No row is completed and the next attempt is
    made. *)
Example failure_leaves_the_beginning_of_a_row :
  let request sequence :=
    mkRequest "198.27.92.1" 4242 sequence 1 in
  Sample.run Sample.unreachable_at_1 2 1 =
  ([PrintHeader "198.27.92.1" "198.27.92.1" 1; NewSocket false;
    Send (request 0); Receive (request 0) (2 # 1);
    PrintSource 1 "192.168.0.254" "192.168.0.254";
    Send (request 1); Receive (request 1) (2 # 1);
    PrintSource 1 "192.168.0.254" "192.168.0.254";
    PrintCompleted],
   Returned) /\
  probe_outcome Sample.unreachable_at_1 (2 # 1) (request 0) =
    Failure (Some (mkReply "192.168.0.254" 0.015625 ICMPError)) /\
  hops (fst (Sample.run Sample.unreachable_at_1 2 1)) = [].
Proof. repeat split. Qed.

(** C1 as stated fails: with [count = 2], [max_hops = 2] and a gateway at
    ttl 1 that answers every request with Destination Unreachable, the call
    returns, no row is the destination's, and the only row has ttl 2: the
    rows do not start at 1 and there are not [max_hops] of them. *)
Lemma gap_after_failures :
  let run := Sample.run Sample.unreachable_at_1 2 2 in
  let rows := hops (fst run) in
  snd run = Returned /\
  Forall (fun h => reached_destination h = false) rows /\
  map hop_ttl rows = [2] /\
  ~ (map hop_ttl rows = range_from 1 (List.length rows)) /\
  List.length rows <> Z.to_nat 2.
Proof.
  cbn. repeat split; try discriminate.
  repeat constructor.
Qed.



(** C8 as stated fails: on a host where [getfqdn] finds no name for the
    address and gives the address back, the name of the row is the
    address, not absent. *)
Lemma name_present_when_lookup_fails :
  let host := Sample.host_of (Sample.reachable 1) in
  let rows := hops (fst (Sample.run (Sample.reachable 1) 1 1)) in
  getfqdn host "198.27.92.1" = "198.27.92.1"%string /\
  exists h,
    In h rows /\ address h = Some "198.27.92.1"%string /\
    resolved_name h = Some "198.27.92.1"%string /\
    resolved_name h <> None.
Proof.
  cbn. split; [reflexivity|]. eexists. split; [left; reflexivity|].
  repeat split. discriminate.
Qed.

(** * The theorems on sample networks *)

(** A gateway that answers the first probe with Destination Unreachable
    and the second with Time Exceeded, the destination behind it: no ttl
    loses its row, and the rows are 1 and 2, the last one the
    destination's. *)
Lemma ttl_values_of_the_rows_witness :
  let sock := Sample.answers_the_second_probe in
  let host := Sample.host_of sock in
  let run := Sample.run sock 2 30 in
  let rows := hops (fst run) in
  ip_address_of host "198.27.92.1" = Some "198.27.92.1"%string /\
  socket_for host "198.27.92.1" = Some sock /\
  0 < 2 /\ snd run = Returned /\
  probe_outcome sock (2 # 1) (request_of "198.27.92.1" 4242 1 0) =
    Failure (Some (mkReply "192.168.0.254" 1.501953125 ICMPError)) /\
  StronglySorted Z.lt (map hop_ttl rows) /\
  Forall (fun t => 1 <= t <= 30) (map hop_ttl rows) /\
  (filter (fun h => hop_ttl h =? 1) rows = [] <->
   In (Send (request_of "198.27.92.1" 4242 1 (2 - 1))) (fst run) /\
   is_failure
     (probe_outcome sock (2 # 1) (request_of "198.27.92.1" 4242 1 (2 - 1)))
   = true) /\
  map hop_ttl rows = range_from 1 (List.length rows) /\
  ((exists before h,
      rows = before ++ [h] /\ reached_destination h = true) \/
   List.length rows = Z.to_nat 30) /\
  (Forall (fun h => reached_destination h = false) rows ->
   List.length rows = Z.to_nat 30).
Proof.
  intros sock host run rows. split; [reflexivity|]. split; [reflexivity|].
  split; [reflexivity|]. split; [reflexivity|]. split; [reflexivity|].
  destruct (ttl_values_of_the_rows host sock "198.27.92.1"
              2 (5 # 100) (2 # 1) 4242 30 "198.27.92.1" eq_refl eq_refl)
    as (Hsorted & Hbounds & Hrest).
  split; [exact Hsorted|]. split; [exact Hbounds|].
  destruct (Hrest eq_refl eq_refl) as [Hlost Hall]. split.
  - apply Hlost. vm_compute. do 2 right. left. reflexivity.
  - apply Hall. intros t _. unfold probe_outcome. cbn.
    destruct (t <? 2); reflexivity.
Defined.

Lemma destination_row_ends_the_rows_witness :
  let host := Sample.host_of (Sample.reachable 3) in
  let run := Sample.run (Sample.reachable 3) 2 30 in
  ip_address_of host "198.27.92.1" = Some "198.27.92.1"%string /\
  socket_for host "198.27.92.1" = Some (Sample.reachable 3) /\
  (exists before h,
     hops (fst run) = before ++ [h] /\ reached_destination h = true /\
     Forall (fun x => reached_destination x = false) before) /\
  snd run = Returned.
Proof.
  intros host run. split; [reflexivity|]. split; [reflexivity|].
  destruct (destination_row_ends_the_rows host (Sample.reachable 3)
              "198.27.92.1" 2 (5 # 100) (2 # 1) 4242 30 "198.27.92.1"
              eq_refl eq_refl)
    as ([_ Hlast] & _ & Hends).
  assert (Hsent : In (Send (mkRequest "198.27.92.1" 4242 0 3)) (fst run)).
  { vm_compute. do 12 right. left. reflexivity. }
  split.
  - apply Hlast.
    exists (mkRequest "198.27.92.1" 4242 0 3),
      (mkReply "198.27.92.1" 1.501953125%float EchoReply), 1.5%float.
    split; [exact Hsent|]. split; [cbn; lia | reflexivity].
  - eapply Hends; [exact Hsent | reflexivity].
Defined.

Lemma stars_after_the_last_timeout_witness :
  let host := Sample.host_of Sample.silent in
  let run := Sample.run Sample.silent 2 2 in
  ip_address_of host "198.27.92.1" = Some "198.27.92.1"%string /\
  socket_for host "198.27.92.1" = Some Sample.silent /\
  In (PrintStars 1) (fst run) /\
  filter (fun h => hop_ttl h =? 1) (hops (fst run)) = [no_response 1].
Proof.
  intros host run. split; [reflexivity|]. split; [reflexivity|].
  destruct (stars_after_the_last_timeout host Sample.silent "198.27.92.1"
              2 (5 # 100) (2 # 1) 4242 2 "198.27.92.1" eq_refl eq_refl 1)
    as ([_ Hstars] & _ & _ & Hrow).
  split.
  - apply Hstars. split; [|reflexivity].
    vm_compute. do 4 right. left. reflexivity.
  - apply Hrow; [|reflexivity].
    vm_compute. do 2 right. left. reflexivity.
Defined.

Lemma first_response_ends_the_attempts_witness :
  let host := Sample.host_of (Sample.reachable 3) in
  let run := Sample.run (Sample.reachable 3) 2 30 in
  ip_address_of host "198.27.92.1" = Some "198.27.92.1"%string /\
  socket_for host "198.27.92.1" = Some (Sample.reachable 3) /\
  0 <= 0 < 1 /\
  is_response
    (probe_outcome (Sample.reachable 3) (2 # 1)
       (request_of "198.27.92.1" 4242 1 0)) = true /\
  ~ In (Send (request_of "198.27.92.1" 4242 1 1)) (fst run) /\
  (forall q, ~ In (Receive (request_of "198.27.92.1" 4242 1 1) q) (fst run)).
Proof.
  intros host run. split; [reflexivity|]. split; [reflexivity|].
  split; [lia|]. split; [reflexivity|].
  apply (first_response_ends_the_attempts host (Sample.reachable 3)
           "198.27.92.1" 2 (5 # 100) (2 # 1) 4242 30 "198.27.92.1"
           eq_refl eq_refl 1 0 1); [lia | reflexivity].
Defined.


Lemma name_is_getfqdn_of_the_address_witness :
  let host := Sample.host_of (Sample.reachable 1) in
  let run := Sample.run (Sample.reachable 1) 1 1 in
  let h :=
    mkHop 1 (Some "198.27.92.1"%string) (Some "198.27.92.1"%string)
      (Some 1.953125%float) true in
  In h (hops (fst run)) /\
  resolved_name h = Some (getfqdn host "198.27.92.1").
Proof.
  intros host run h.
  assert (Hin : In h (hops (fst run))) by (vm_compute; left; reflexivity).
  split; [exact Hin|].
  destruct (name_is_getfqdn_of_the_address host "198.27.92.1" 1 (5 # 100)
              (2 # 1) 4242 1) as [Hname _].
  exact (Hname h Hin).
Defined.


Lemma at_most_max_hops_times_count_requests_witness :
  let run := Sample.run (Sample.reachable 3) 2 30 in
  0 < 2 /\ 0 < 30 /\
  snd run <> OutOfFuel /\
  Z.of_nat (List.length (sent (fst run))) <= 30 * 2.
Proof.
  intros run. split; [reflexivity|]. split; [reflexivity|].
  destruct (at_most_max_hops_times_count_requests
              (Sample.host_of (Sample.reachable 3)) "198.27.92.1" 2
              (5 # 100) (2 # 1) 4242 30 eq_refl eq_refl)
    as (Hfuel & _ & Hbound & _).
  split; [exact Hfuel | exact Hbound].
Defined.

(** * The further properties on sample networks *)

Lemma requests_carry_the_arguments_witness :
  let host := Sample.host_of (Sample.reachable 3) in
  let run := Sample.run (Sample.reachable 3) 2 30 in
  ip_address_of host "198.27.92.1" = Some "198.27.92.1"%string /\
  socket_for host "198.27.92.1" = Some (Sample.reachable 3) /\
  0 <= 4242 < 65536 /\ 2 <= 65536 /\
  (forall request, In (Send request) (fst run) -> stored_id request = 4242) /\
  NoDup (map (fun request => (ttl request, stored_sequence request))
           (sent (fst run))).
Proof.
  intros host run. split; [reflexivity|]. split; [reflexivity|].
  split; [lia|]. split; [lia|].
  destruct (requests_carry_the_arguments host (Sample.reachable 3)
              "198.27.92.1" 2 (5 # 100) (2 # 1) 4242 30 "198.27.92.1"
              eq_refl eq_refl) as (_ & _ & Hid & Hstored).
  split; [apply Hid; lia | apply Hstored; lia].
Defined.

Lemma receive_follows_its_send_witness :
  let host := Sample.host_of (Sample.reachable 1) in
  let run := Sample.run (Sample.reachable 1) 1 1 in
  let request := mkRequest "198.27.92.1" 4242 0 1 in
  ip_address_of host "198.27.92.1" = Some "198.27.92.1"%string /\
  socket_for host "198.27.92.1" = Some (Sample.reachable 1) /\
  In (Send request) (fst run) /\
  (In (Receive request (2 # 1)) (fst run) <->
   exists request_time, send (Sample.reachable 1) request = Sent request_time).
Proof.
  intros host run request. split; [reflexivity|]. split; [reflexivity|].
  assert (Hsent : In (Send request) (fst run))
    by (vm_compute; do 2 right; left; reflexivity).
  split; [exact Hsent|].
  destruct (receive_follows_its_send host (Sample.reachable 1)
              "198.27.92.1" 1 (5 # 100) (2 # 1) 4242 1 "198.27.92.1"
              eq_refl eq_refl) as [_ Hpair].
  exact (Hpair request Hsent).
Defined.


Lemma no_request_without_attempts_or_hops_witness :
  let host := Sample.host_of Sample.silent in
  ip_address_of host "198.27.92.1" = Some "198.27.92.1"%string /\
  socket_for host "198.27.92.1" = Some Sample.silent /\
  (0 <= 0 \/ 5 <= 0) /\
  Sample.run Sample.silent 0 5 =
  ([PrintHeader "198.27.92.1" "198.27.92.1" 5; NewSocket false;
    PrintCompleted], Returned).
Proof.
  intros host. split; [reflexivity|]. split; [reflexivity|].
  split; [left; lia|].
  apply (no_request_without_attempts_or_hops host Sample.silent
           "198.27.92.1" 0 (5 # 100) (2 # 1) 4242 5 "198.27.92.1"
           eq_refl eq_refl).
  left. lia.
Defined.

Lemma when_a_ttl_has_a_row_witness :
  let host := Sample.host_of Sample.silent in
  let run := Sample.run Sample.silent 2 2 in
  ip_address_of host "198.27.92.1" = Some "198.27.92.1"%string /\
  socket_for host "198.27.92.1" = Some Sample.silent /\
  (exists h, In h (hops (fst run)) /\ hop_ttl h = 1) /\
  (List.length (filter (fun h => (hop_ttl h =? 1)%Z) (hops (fst run))) <= 1)%nat.
Proof.
  intros host run. split; [reflexivity|]. split; [reflexivity|].
  destruct (when_a_ttl_has_a_row host Sample.silent "198.27.92.1" 2
              (5 # 100) (2 # 1) 4242 2 "198.27.92.1" eq_refl eq_refl 1)
    as [[_ Hrow] Hone].
  split; [|exact Hone].
  apply Hrow. exists 1. split.
  - vm_compute. do 4 right. left. reflexivity.
  - right. split; reflexivity.
Defined.

Lemma every_reply_is_displayed_witness :
  let host := Sample.host_of (Sample.reachable 1) in
  let run := Sample.run (Sample.reachable 1) 1 1 in
  ip_address_of host "198.27.92.1" = Some "198.27.92.1"%string /\
  socket_for host "198.27.92.1" = Some (Sample.reachable 1) /\
  exists s request_time reply,
    In (Send (request_of "198.27.92.1" 4242 1 s)) (fst run) /\
    send (Sample.reachable 1) (request_of "198.27.92.1" 4242 1 s) =
      Sent request_time /\
    receive (Sample.reachable 1) (request_of "198.27.92.1" 4242 1 s) (2 # 1)
      = Received reply /\
    "198.27.92.1"%string = source reply /\
    "198.27.92.1"%string = getfqdn host "198.27.92.1".
Proof.
  intros host run. split; [reflexivity|]. split; [reflexivity|].
  apply (every_reply_is_displayed host (Sample.reachable 1) "198.27.92.1"
           1 (5 # 100) (2 # 1) 4242 1 "198.27.92.1" eq_refl eq_refl
           1 "198.27.92.1" "198.27.92.1").
  vm_compute. do 4 right. left. reflexivity.
Defined.

Lemma the_search_goes_up_to_max_hops_witness :
  let host := Sample.host_of Sample.silent in
  let run := Sample.run Sample.silent 2 2 in
  ip_address_of host "198.27.92.1" = Some "198.27.92.1"%string /\
  socket_for host "198.27.92.1" = Some Sample.silent /\
  0 < 2 /\ snd run = Returned /\
  ((exists request reply request_time,
      In (Send request) (fst run) /\
      probe_outcome Sample.silent (2 # 1) request =
        Reply reply request_time) \/
   In (Send (request_of "198.27.92.1" 4242 2 0)) (fst run)).
Proof.
  intros host run. split; [reflexivity|]. split; [reflexivity|].
  split; [reflexivity|]. split; [reflexivity|].
  destruct (the_search_goes_up_to_max_hops host Sample.silent "198.27.92.1"
              2 (5 # 100) (2 # 1) 4242 2 "198.27.92.1" eq_refl eq_refl)
    as [_ Hup].
  apply Hup; reflexivity.
Defined.

Lemma one_sleep_per_gateway_row_witness :
  let host := Sample.host_of (Sample.reachable 3) in
  let run := Sample.run (Sample.reachable 3) 2 30 in
  ip_address_of host "198.27.92.1" = Some "198.27.92.1"%string /\
  socket_for host "198.27.92.1" = Some (Sample.reachable 3) /\
  slept (fst run) =
  map (fun _ => (5 # 100)%Q) (filter is_gateway_row (hops (fst run))).
Proof.
  intros host run. split; [reflexivity|]. split; [reflexivity|].
  apply (one_sleep_per_gateway_row host (Sample.reachable 3) "198.27.92.1"
           2 (5 # 100) (2 # 1) 4242 30 "198.27.92.1" eq_refl eq_refl).
Defined.


Lemma only_the_requests_sent_matter_witness :
  let host := Sample.host_of (Sample.reachable 3) in
  let loops sock :=
    while_loop host sock "198.27.92.1" 2 (5 # 100) (2 # 1) 4242 30
      (Z.to_nat 30) 1 false in
  (forall request,
     In (Send request) (fst (loops (Sample.reachable 3))) ->
     send (Sample.reachable 3) request =
       send (Sample.reachable_once 3) request /\
     receive (Sample.reachable 3) request (2 # 1) =
       receive (Sample.reachable_once 3) request (2 # 1)) /\
  loops (Sample.reachable_once 3) = loops (Sample.reachable 3).
Proof.
  intros host loops.
  assert (H : forall request,
            In (Send request) (fst (loops (Sample.reachable 3))) ->
            send (Sample.reachable 3) request =
              send (Sample.reachable_once 3) request /\
            receive (Sample.reachable 3) request (2 # 1) =
              receive (Sample.reachable_once 3) request (2 # 1)).
  { intros request Hin. vm_compute in Hin.
    repeat (destruct Hin as [Hin|Hin];
            [try discriminate; injection Hin as <-; split; reflexivity|]).
    destruct Hin. }
  split; [exact H|].
  exact (only_the_requests_sent_matter host (Sample.reachable 3)
           (Sample.reachable_once 3) "198.27.92.1" 2 (5 # 100) (2 # 1) 4242
           30 H).
Defined.

Lemma more_hops_only_add_witness :
  let host := Sample.host_of Sample.silent in
  let loops max_hops :=
    while_loop host Sample.silent "198.27.92.1" 1 (5 # 100) (2 # 1) 4242
      max_hops (Z.to_nat max_hops) 1 false in
  1 <= 2 /\
  exists rest,
    fst (loops 2) = fst (loops 1) ++ rest /\
    hops (fst (loops 2)) = hops (fst (loops 1)) ++ hops rest.
Proof.
  intros host loops. split; [lia|].
  destruct (more_hops_only_add host Sample.silent "198.27.92.1" 1 (5 # 100)
              (2 # 1) 4242 1 2) as [Hadd _]; [lia|].
  exact Hadd.
Defined.

